(** * llgo: the lowering context of [ssa/package.go] and the mode logic of the
    build driver, as a shallow embedding.

    Go pointers to mutable objects are modelled by an explicit store (the
    [World]): the one [aProgram] of a compilation run, the packages created
    from it (a [Package] is an index into that store), an allocation counter
    that gives every [aType] object its address, the log of supplier
    invocations and the files written by the driver.  A Go panic is the
    [Panic] result; it keeps the store as it was when the panic was raised. *)

From Stdlib Require Import ZArith.
From stdpp Require Import base gmap strings list.

Local Open Scope string_scope.
Local Open Scope list_scope.
Set Warnings "-register-all".

(** ** go/types: the fragment of the type language that package.go inspects *)

Module types.

Inductive BasicKind :=
  Invalid | Bool | Int | Int8 | Uintptr | Float64 | String | UnsafePointer.

(** [types.Type].  A [Tuple] is a list of variables (name and type), as
    [*types.Tuple] is; named types are identified by package path and name. *)
Inductive Type_ :=
| Basic (k : BasicKind)
| Pointer (elem : Type_)
| Named (pkg name : string)
| Struct (fields : Tuple)
| Signature (params results : Tuple) (variadic : bool)
| Interface
| TupleType (vars : Tuple)
with Tuple :=
| TNil
| TCons (name : string) (typ : Type_) (rest : Tuple).

(** [types.Typ[k]]: the predeclared basic types. *)
Definition Typ (k : BasicKind) : Type_ := Basic k.

Fixpoint Len (t : Tuple) : nat :=
  match t with
  | TNil => 0
  | TCons _ _ r => S (Len r)
  end.

(** [t.At(i).Type()]; [None] where Go panics (index out of range). *)
Fixpoint At (t : Tuple) (i : nat) : option Type_ :=
  match t, i with
  | TNil, _ => None
  | TCons _ ty _, O => Some ty
  | TCons _ _ r, S j => At r j
  end.

Fixpoint VarName (t : Tuple) (i : nat) : option string :=
  match t, i with
  | TNil, _ => None
  | TCons n _ _, O => Some n
  | TCons _ _ r, S j => VarName r j
  end.

(** [types.NewTuple(vs...)] appended after the variables of [t]. *)
Definition Params (sig : Type_) : Tuple :=
  match sig with
  | Signature ps _ _ => ps
  | _ => TNil
  end.

Definition Results (sig : Type_) : Tuple :=
  match sig with
  | Signature _ rs _ => rs
  | _ => TNil
  end.

Definition Variadic (sig : Type_) : bool :=
  match sig with
  | Signature _ _ v => v
  | _ => false
  end.

Fixpoint tuple_app (t u : Tuple) : Tuple :=
  match t with
  | TNil => u
  | TCons n ty r => TCons n ty (tuple_app r u)
  end.

Definition BasicKind_eq_dec (a b : BasicKind) : {a = b} + {a <> b}.
Proof. decide equality. Defined.

(** [types.Identical], modelled as equality of type terms; it decides the
    keys of the [typeutil.Map] of lowered types. *)
Fixpoint Type_eq_dec (a b : Type_) {struct a} : {a = b} + {a <> b}
with Tuple_eq_dec (a b : Tuple) {struct a} : {a = b} + {a <> b}.
Proof.
  - decide equality; auto using BasicKind_eq_dec, String.string_dec, Bool.bool_dec.
  - decide equality; auto using String.string_dec.
Defined.

(** Objects of a package scope: what [Scope().Lookup(name)] returns. *)
Inductive ObjKind := ObjTypeName | ObjFunc | ObjVar.

Record Object := {
  obj_kind : ObjKind;
  obj_pkg : string;          (* Pkg().Path() *)
  obj_type : Type_           (* Type() *)
}.

(** [*types.Package], as far as package.go looks into it. *)
Record Package := {
  Path : string;
  Scope : gmap string Object
}.

End types.

#[export] Instance Type_eq_decision : EqDecision types.Type_ := types.Type_eq_dec.

(** The empty interface [any] ([tyAny] of the ssa package). *)
Definition tyAny : types.Type_ := types.Interface.

(** ** Values handed to [SetRuntime] and [SetPython] *)

(** What a call of a [func() *types.Package] does: it returns a package handle
    (possibly nil) or panics (the driver's supplier runs [check(err)]). *)
Inductive Outcome :=
| Returns (p : option types.Package)
| Panics (msg : string).

(** A non-nil function value of type [func() *types.Package]. *)
Record Supplier := {
  sup_id : nat;
  sup_run : Outcome
}.

(** A Go value of static type [any], by dynamic type.  A pointer and a function
    value may be nil while the interface value is typed. *)
Inductive any :=
| AnyNil
| AnyPackage (v : option types.Package)     (* *types.Package *)
| AnySupplier (v : option Supplier)         (* func() *types.Package *)
| AnyOther (dyntype : string).              (* any other dynamic type *)

(** ** llvm: symbolic IR values and instructions *)

Module llvm.

Inductive Linkage := ExternalLinkage | LinkOnceAnyLinkage.

(** [llvm.Type]: only void is told apart; every other type is named by the
    source type it lowers. *)
Inductive Type_ := Void | Of (t : types.Type_).

(** Functions are referred to by name where the code reads [Name()], and by
    their index in the module where it reads a parameter or an instruction. *)
Inductive Value :=
| Func (name : string)                       (* a function of the module *)
| Global (name : string)
| Param (fn : nat) (i : nat)                 (* i-th parameter of function fn *)
| Null (t : Type_)
| CStr (s : string)
| Inst (fn blk idx : nat)                    (* result of an instruction *)
| Agg (t : Type_) (flds : list Value).

(** [v.Name()] *)
Definition Name (v : Value) : string :=
  match v with
  | Func n | Global n => n
  | _ => ""
  end.

Inductive Instr :=
| Call (callee : Value) (args : list Value) (tail : bool)
| Ret (v : Value)
| RetVoid.

Definition SetTailCall (b : bool) (i : Instr) : Instr :=
  match i with
  | Call c a _ => Call c a b
  | _ => i
  end.

End llvm.

(** ** ssa: types, expressions, functions, packages, the program *)

Module ssa.

Inductive valueKind := vkInvalid | vkConcrete.

(** [Type = *aType].  The pointer is modelled by the pointed-to object together
    with its address [addr]: two [Type]s are identity-equal when they are the
    same object, address included.  [raw] is [t.raw.Type]. *)
Record aType := {
  addr : nat;
  ll : llvm.Type_;
  raw : types.Type_;
  kind : valueKind
}.

(** [Expr]: an IR value with its lowered type. *)
Record Expr := {
  impl : llvm.Value;
  Type_ : aType
}.

Inductive Background := InGo | InC.

(** [*aFunction]: the declaration in the module, its signature's parameters,
    linkage and basic blocks. *)
Record aFunction := {
  fn_Expr : Expr;
  fn_params : types.Tuple;
  fn_bg : Background;
  fn_linkage : llvm.Linkage;
  fn_blks : list (list llvm.Instr)
}.

Record aGlobal := {
  gbl_Expr : Expr;
  gbl_init : option llvm.Value;
  gbl_linkage : llvm.Linkage
}.

(** [llvm.Module]: the definitions emitted so far, in order of emission. *)
Record Module_ := {
  mod_id : string;
  mod_funcs : list aFunction;
  mod_globals : list aGlobal
}.

(** [Function], [Global]: pointers into the module, modelled as indices into
    [mod_funcs] and [mod_globals]. *)
Definition Function := nat.
Definition Global := nat.

Record aPackage := {
  mod_ : Module_;
  vars : gmap string Global;
  fns : gmap string Function;
  stubs : gmap string Function;
  pyfns : gmap string Function
}.

(** [Package = *aPackage]: an index into the store of packages. *)
Definition Package := nat.

(** The eleven [Type]-valued memo fields and the three signature memo fields of
    [aProgram], by name; nil is [None]. *)
Inductive TypeField :=
  anyTy | voidTy | voidPtr | boolTy | cstrTy | stringTy | uintptrTy | intTy
| f64Ty | pyObjPtr | pyObjPPtr.

Inductive SigField := pyImpTy | callNoArg | callOneArg.

#[export] Instance TypeField_eq_decision : EqDecision TypeField.
Proof. solve_decision. Defined.

#[export] Instance SigField_eq_decision : EqDecision SigField.
Proof. solve_decision. Defined.

Record aProgram := {
  typs : list (types.Type_ * aType);          (* typeutil.Map: rawType -> Type *)
  rt : option types.Package;
  rtget : option Supplier;
  py : option types.Package;
  pyget : option Supplier;
  tyfield : TypeField -> option aType;
  sigfield : SigField -> option types.Type_;
  needRuntime : bool;
  needPyInit : bool
}.

Record World := {
  prog : aProgram;
  next_addr : nat;                 (* next free address for an aType object *)
  pkgs : list aPackage;            (* the packages created so far *)
  calls : list nat                 (* suppliers invoked, oldest first *)
}.

(** Field updates. *)
Definition with_typs v (p : aProgram) : aProgram :=
  {| typs := v; rt := rt p; rtget := rtget p; py := py p; pyget := pyget p;
     tyfield := tyfield p; sigfield := sigfield p;
     needRuntime := needRuntime p; needPyInit := needPyInit p |}.
Definition with_rt v (p : aProgram) : aProgram :=
  {| typs := typs p; rt := v; rtget := rtget p; py := py p; pyget := pyget p;
     tyfield := tyfield p; sigfield := sigfield p;
     needRuntime := needRuntime p; needPyInit := needPyInit p |}.
Definition with_rtget v (p : aProgram) : aProgram :=
  {| typs := typs p; rt := rt p; rtget := v; py := py p; pyget := pyget p;
     tyfield := tyfield p; sigfield := sigfield p;
     needRuntime := needRuntime p; needPyInit := needPyInit p |}.
Definition with_py v (p : aProgram) : aProgram :=
  {| typs := typs p; rt := rt p; rtget := rtget p; py := v; pyget := pyget p;
     tyfield := tyfield p; sigfield := sigfield p;
     needRuntime := needRuntime p; needPyInit := needPyInit p |}.
Definition with_pyget v (p : aProgram) : aProgram :=
  {| typs := typs p; rt := rt p; rtget := rtget p; py := py p; pyget := v;
     tyfield := tyfield p; sigfield := sigfield p;
     needRuntime := needRuntime p; needPyInit := needPyInit p |}.
Definition with_tyfield (f : TypeField) (v : aType) (p : aProgram) : aProgram :=
  {| typs := typs p; rt := rt p; rtget := rtget p; py := py p; pyget := pyget p;
     tyfield := fun g => if decide (g = f) then Some v else tyfield p g;
     sigfield := sigfield p;
     needRuntime := needRuntime p; needPyInit := needPyInit p |}.
Definition with_sigfield (f : SigField) (v : types.Type_) (p : aProgram) : aProgram :=
  {| typs := typs p; rt := rt p; rtget := rtget p; py := py p; pyget := pyget p;
     tyfield := tyfield p;
     sigfield := fun g => if decide (g = f) then Some v else sigfield p g;
     needRuntime := needRuntime p; needPyInit := needPyInit p |}.
Definition with_needRuntime v (p : aProgram) : aProgram :=
  {| typs := typs p; rt := rt p; rtget := rtget p; py := py p; pyget := pyget p;
     tyfield := tyfield p; sigfield := sigfield p;
     needRuntime := v; needPyInit := needPyInit p |}.
Definition with_needPyInit v (p : aProgram) : aProgram :=
  {| typs := typs p; rt := rt p; rtget := rtget p; py := py p; pyget := pyget p;
     tyfield := tyfield p; sigfield := sigfield p;
     needRuntime := needRuntime p; needPyInit := v |}.

Definition with_prog (f : aProgram -> aProgram) (w : World) : World :=
  {| prog := f (prog w); next_addr := next_addr w; pkgs := pkgs w; calls := calls w |}.
Definition with_pkgs (f : list aPackage -> list aPackage) (w : World) : World :=
  {| prog := prog w; next_addr := next_addr w; pkgs := f (pkgs w); calls := calls w |}.

Definition with_mod v (p : aPackage) : aPackage :=
  {| mod_ := v; vars := vars p; fns := fns p; stubs := stubs p; pyfns := pyfns p |}.
Definition with_vars v (p : aPackage) : aPackage :=
  {| mod_ := mod_ p; vars := v; fns := fns p; stubs := stubs p; pyfns := pyfns p |}.
Definition with_fns v (p : aPackage) : aPackage :=
  {| mod_ := mod_ p; vars := vars p; fns := v; stubs := stubs p; pyfns := pyfns p |}.
Definition with_stubs v (p : aPackage) : aPackage :=
  {| mod_ := mod_ p; vars := vars p; fns := fns p; stubs := v; pyfns := pyfns p |}.

Definition with_funcs (f : list aFunction -> list aFunction) (p : aPackage) : aPackage :=
  with_mod {| mod_id := mod_id (mod_ p); mod_funcs := f (mod_funcs (mod_ p));
              mod_globals := mod_globals (mod_ p) |} p.
Definition with_globals (f : list aGlobal -> list aGlobal) (p : aPackage) : aPackage :=
  with_mod {| mod_id := mod_id (mod_ p); mod_funcs := mod_funcs (mod_ p);
              mod_globals := f (mod_globals (mod_ p)) |} p.

(** ** The monad of the embedding: state over [World], with panics *)

Inductive Res (A : Type) :=
| Ok (a : A) (w : World)
| Panic (msg : string) (w : World).
Arguments Ok {A} a w.
Arguments Panic {A} msg w.

Definition M (A : Type) : Type := World -> Res A.

Definition ret {A} (a : A) : M A := fun w => Ok a w.
Definition panic {A} (msg : string) : M A := fun w => Panic msg w.
Definition bind {A B} (m : M A) (f : A -> M B) : M B :=
  fun w => match m w with
           | Ok a w' => f a w'
           | Panic msg w' => Panic msg w'
           end.

Notation "x <- c1 ;; c2" := (bind c1 (fun x => c2))
  (at level 100, c1 at next level, right associativity).
Notation "c1 ;;; c2" := (bind c1 (fun _ => c2))
  (at level 100, right associativity).

(** The store a computation leaves behind, returned or panicked. *)
Definition world_of {A} (r : Res A) : World :=
  match r with
  | Ok _ w => w
  | Panic _ w => w
  end.

Definition returned {A} (r : Res A) : option A :=
  match r with
  | Ok a _ => Some a
  | Panic _ _ => None
  end.

Definition getProg : M aProgram := fun w => Ok (prog w) w.
Definition modProg (f : aProgram -> aProgram) : M unit := fun w => Ok tt (with_prog f w).

(** Allocation of a new [aType] object. *)
Definition newType (l : llvm.Type_) (r : types.Type_) (k : valueKind) : M aType :=
  fun w => Ok {| addr := next_addr w; ll := l; raw := r; kind := k |}
              {| prog := prog w; next_addr := S (next_addr w); pkgs := pkgs w;
                 calls := calls w |}.

(** Calling a function value of type [func() *types.Package]; calling nil panics. *)
Definition callSupplier (f : option Supplier) : M (option types.Package) :=
  fun w => match f with
           | None => Panic "invalid memory address or nil pointer dereference" w
           | Some s =>
               let w' := {| prog := prog w; next_addr := next_addr w; pkgs := pkgs w;
                            calls := calls w ++ [sup_id s] |} in
               match sup_run s with
               | Returns r => Ok r w'
               | Panics msg => Panic msg w'
               end
           end.

(** Dereferencing a [Package]. *)
Definition getPkg (k : Package) : M aPackage :=
  fun w => match pkgs w !! k with
           | Some p => Ok p w
           | None => Panic "invalid memory address or nil pointer dereference" w
           end.
Definition modPkg (k : Package) (f : aPackage -> aPackage) : M unit :=
  p <- getPkg k ;; (fun w => Ok tt (with_pkgs (fun l => <[k := f p]> l) w)).
Definition allocPkg (p : aPackage) : M Package :=
  fun w => Ok (length (pkgs w)) (with_pkgs (fun l => l ++ [p]) w).

(** Option results that panic when absent. *)
Definition orPanic {A} (msg : string) (o : option A) : M A :=
  match o with
  | Some a => ret a
  | None => panic msg
  end.

Fixpoint mapM {A B} (f : A -> M B) (l : list A) : M (list B) :=
  match l with
  | [] => ret []
  | a :: r => b <- f a ;; bs <- mapM f r ;; ret (b :: bs)
  end.

(** *** Program (package.go, lines 98-353) *)

(** [NewProgram(target)]: every memo field nil, both flags false. *)
Definition NewProgram : World :=
  {| prog := {| typs := []; rt := None; rtget := None; py := None; pyget := None;
                tyfield := fun _ => None; sigfield := fun _ => None;
                needRuntime := false; needPyInit := false |};
     next_addr := 0; pkgs := []; calls := [] |}.

Definition SetPython (py_ : any) : M unit :=
  match py_ with
  | AnyPackage v => modProg (with_py v)
  | AnySupplier v => modProg (with_pyget v)
  | _ => ret tt
  end.

Definition SetRuntime (runtime : any) : M unit :=
  match runtime with
  | AnyPackage v => modProg (with_rt v)
  | AnySupplier v => modProg (with_rtget v)
  | _ => ret tt
  end.

Definition NeedRuntime : M bool :=
  p <- getProg ;; ret (needRuntime p).

Definition runtime : M (option types.Package) :=
  p <- getProg ;;
  match rt p with
  | None => (v <- callSupplier (rtget p) ;; modProg (with_rt v))
  | Some _ => ret tt
  end ;;;
  modProg (with_needRuntime true) ;;;
  p <- getProg ;;
  ret (rt p).

Definition python : M (option types.Package) :=
  p <- getProg ;;
  match py p with
  | None => (v <- callSupplier (pyget p) ;; modProg (with_py v))
  | Some _ => ret tt
  end ;;;
  p <- getProg ;;
  ret (py p).

(** [pkg.Scope().Lookup(name)]: nil package and absent name both lead to a
    nil dereference in the caller. *)
Definition Lookup (pkg : option types.Package) (name : string) : M types.Object :=
  match pkg with
  | None => panic "invalid memory address or nil pointer dereference"
  | Some pk => orPanic "invalid memory address or nil pointer dereference"
                 (types.Scope pk !! name)
  end.

(** The type assertions to [*types.Named], [*types.Signature] and
    [*types.Func]; a failed assertion panics. *)
Definition asNamed (t : types.Type_) : M types.Type_ :=
  match t with
  | types.Named _ _ => ret t
  | _ => panic "interface conversion: types.Type is not *types.Named"
  end.

Definition asSignature (t : types.Type_) : M types.Type_ :=
  match t with
  | types.Signature _ _ _ => ret t
  | _ => panic "interface conversion: types.Type is not *types.Signature"
  end.

Definition asFunc (o : types.Object) : M types.Object :=
  match types.obj_kind o with
  | types.ObjFunc => ret o
  | _ => panic "interface conversion: types.Object is not *types.Func"
  end.

Definition pyNamed (name : string) : M types.Type_ :=
  pk <- python ;;
  o <- Lookup pk name ;;
  asNamed (types.obj_type o).

(** [typs.At(raw)] *)
Fixpoint lookupType (T : types.Type_) (m : list (types.Type_ * aType)) : option aType :=
  match m with
  | [] => None
  | (k, v) :: r => if decide (k = T) then Some v else lookupType T r
  end.

Definition kindOf (T : types.Type_) : valueKind :=
  match T with
  | types.Basic types.Invalid => vkInvalid
  | _ => vkConcrete
  end.

(** Modelled from the spec: [Program.rawType] with [toType] (ssa/type.go, not
    under src).  On the first request for a source type the lowering is
    computed, the component types being lowered first, stored in [typs] under
    the source type, and returned; a later request returns the stored [Type]. *)
Fixpoint rawType (T : types.Type_) : M aType :=
  p <- getProg ;;
  match lookupType T (typs p) with
  | Some t => ret t
  | None =>
      match T with
      | types.Pointer e => (_ <- rawType e ;; ret tt)
      | types.Struct fs => lowerTuple fs
      | types.Signature ps rs _ => (lowerTuple ps ;;; lowerTuple rs)
      | types.TupleType vs => lowerTuple vs
      | _ => ret tt
      end ;;;
      t <- newType (llvm.Of T) T (kindOf T) ;;
      modProg (fun p => with_typs ((T, t) :: typs p) p) ;;;
      ret t
  end
with lowerTuple (ts : types.Tuple) : M unit :=
  match ts with
  | types.TNil => ret tt
  | types.TCons _ ty r => _ <- rawType ty ;; lowerTuple r
  end.

(** The nil-sentinel memoization every [Type] accessor of [Program] repeats:
    [if p.f == nil { p.f = compute() }; return p.f]. *)
Definition memoType (f : TypeField) (compute : M aType) : M aType :=
  p <- getProg ;;
  match tyfield p f with
  | Some t => ret t
  | None => t <- compute ;; modProg (with_tyfield f t) ;;; ret t
  end.

Definition memoSig (f : SigField) (compute : M types.Type_) : M types.Type_ :=
  p <- getProg ;;
  match sigfield p f with
  | Some t => ret t
  | None => t <- compute ;; modProg (with_sigfield f t) ;;; ret t
  end.

(** Modelled from the spec: [Program.Pointer] (ssa/type.go, not under src), the
    lowering of the pointer type to [typ]'s source type. *)
Definition Pointer (typ : aType) : M aType :=
  rawType (types.Pointer (raw typ)).

(** Modelled from the spec: [Program.Null] (ssa/expr.go, not under src), the
    null value of a lowered type. *)
Definition Null (t : aType) : Expr :=
  {| impl := llvm.Null (ll t); Type_ := t |}.

Definition PyObjectPtr : M aType :=
  memoType pyObjPtr (n <- pyNamed "Object" ;; rawType (types.Pointer n)).

Definition PyObjectPtrPtr : M aType :=
  memoType pyObjPPtr (t <- PyObjectPtr ;; Pointer t).

Definition Void : M aType :=
  memoType voidTy (newType llvm.Void (types.Typ types.Invalid) vkInvalid).

Definition VoidPtr : M aType :=
  memoType voidPtr (rawType (types.Typ types.UnsafePointer)).

Definition Bool : M aType :=
  memoType boolTy (rawType (types.Typ types.Bool)).

Definition CStr : M aType :=
  memoType cstrTy (rawType (types.Pointer (types.Typ types.Int8))).

Definition String : M aType :=
  memoType stringTy (rawType (types.Typ types.String)).

Definition Any : M aType :=
  memoType anyTy (rawType tyAny).

Definition Int : M aType :=
  memoType intTy (rawType (types.Typ types.Int)).

Definition Uintptr : M aType :=
  memoType uintptrTy (rawType (types.Typ types.Uintptr)).

Definition Float64 : M aType :=
  memoType f64Ty (rawType (types.Typ types.Float64)).

(** [NewPackage(name, pkgPath)]: an empty module and four empty tables; of the
    Program only [needRuntime] is written. *)
Definition NewPackage (name pkgPath : string) : M Package :=
  modProg (with_needRuntime false) ;;;
  allocPkg {| mod_ := {| mod_id := pkgPath; mod_funcs := []; mod_globals := [] |};
              vars := ∅; fns := ∅; stubs := ∅; pyfns := ∅ |}.

(** *** Functions, globals and builders (declared outside package.go) *)

(** [b.Func], [b.Func.Pkg] and the block the builder inserts into. *)
Record aBuilder := {
  Func : Function;
  Pkg : Package;
  blk : nat
}.
Definition Builder := aBuilder.

Definition getFn (k : Package) (fn : Function) : M aFunction :=
  p <- getPkg k ;;
  orPanic "invalid memory address or nil pointer dereference" (mod_funcs (mod_ p) !! fn).

Definition modFn (k : Package) (fn : Function) (f : aFunction -> aFunction) : M unit :=
  a <- getFn k fn ;;
  modPkg k (with_funcs (fun l => <[fn := f a]> l)).

Definition with_linkage v (f : aFunction) : aFunction :=
  {| fn_Expr := fn_Expr f; fn_params := fn_params f; fn_bg := fn_bg f;
     fn_linkage := v; fn_blks := fn_blks f |}.
Definition with_blks v (f : aFunction) : aFunction :=
  {| fn_Expr := fn_Expr f; fn_params := fn_params f; fn_bg := fn_bg f;
     fn_linkage := fn_linkage f; fn_blks := v |}.

(** Modelled from the spec: [Package.NewFunc] (ssa/decl.go, not under src), the
    get-or-create of the function table: a name already present returns the
    existing entry and the constructor is not invoked; otherwise the function
    is added to the module, stored under its name, and returned. *)
Definition NewFunc (k : Package) (name : string) (sig : types.Type_) (bg : Background)
  : M Function :=
  p <- getPkg k ;;
  match fns p !! name with
  | Some fn => ret fn
  | None =>
      t <- rawType sig ;;
      let fn := length (mod_funcs (mod_ p)) in
      let f := {| fn_Expr := {| impl := llvm.Func name; Type_ := t |};
                  fn_params := types.Params sig; fn_bg := bg;
                  fn_linkage := llvm.ExternalLinkage; fn_blks := [] |} in
      modPkg k (fun p => with_fns (<[name := fn]> (fns p))
                           (with_funcs (fun l => l ++ [f]) p)) ;;;
      ret fn
  end.

(** Modelled from the spec: [Package.NewVar] (ssa/decl.go, not under src), the
    get-or-create of the table of globals. *)
Definition NewVar (k : Package) (name : string) (typ : types.Type_) (bg : Background)
  : M Global :=
  p <- getPkg k ;;
  match vars p !! name with
  | Some g => ret g
  | None =>
      t <- rawType typ ;;
      let g := length (mod_globals (mod_ p)) in
      let a := {| gbl_Expr := {| impl := llvm.Global name; Type_ := t |};
                  gbl_init := None; gbl_linkage := llvm.ExternalLinkage |} in
      modPkg k (fun p => with_vars (<[name := g]> (vars p))
                           (with_globals (fun l => l ++ [a]) p)) ;;;
      ret g
  end.

Definition getGlobal (k : Package) (g : Global) : M aGlobal :=
  p <- getPkg k ;;
  orPanic "invalid memory address or nil pointer dereference" (mod_globals (mod_ p) !! g).

Definition modGlobal (k : Package) (g : Global) (f : aGlobal -> aGlobal) : M unit :=
  a <- getGlobal k g ;;
  modPkg k (with_globals (fun l => <[g := f a]> l)).

(** Modelled from the spec: [FuncAddCtx] (ssa/type.go, not under src).  The
    spec words the result as the closure's signature plus exactly one trailing
    context parameter. *)
Definition FuncAddCtx (ctx_name : string) (ctx_type : types.Type_) (sig : types.Type_)
  : types.Type_ :=
  types.Signature
    (types.tuple_app (types.Params sig) (types.TCons ctx_name ctx_type types.TNil))
    (types.Results sig) (types.Variadic sig).

(** The constants [ClosureCtx] and [ClosureStub] are declared outside
    package.go; the stub's name is the closure's name behind a fixed prefix. *)
Definition ClosureCtx : string := "__llgo_ctx".
Definition ClosureStub : string := "__llgo_stub.".

(** Modelled from the spec: [Function.Param] (ssa/decl.go, not under src), the
    i-th parameter of the function as an expression of its lowered type. *)
Definition Param (k : Package) (fn : Function) (i : nat) : M Expr :=
  f <- getFn k fn ;;
  ty <- orPanic "index out of range" (types.At (fn_params f) i) ;;
  t <- rawType ty ;;
  ret {| impl := llvm.Param fn i; Type_ := t |}.

(** Modelled from the spec: [Function.MakeBody] (ssa/decl.go, not under src):
    [nblk] new basic blocks, and a builder that inserts at the end of the
    function's first block. *)
Definition MakeBody (k : Package) (fn : Function) (nblk : nat) : M Builder :=
  modFn k fn (fun f => with_blks (fn_blks f ++ replicate nblk []) f) ;;;
  ret {| Func := fn; Pkg := k; blk := 0 |}.

(** An instruction appended at the builder's insertion point; its result. *)
Definition emit (b : Builder) (i : llvm.Instr) : M llvm.Value :=
  f <- getFn (Pkg b) (Func b) ;;
  insts <- orPanic "builder has no insertion block" (fn_blks f !! blk b) ;;
  modFn (Pkg b) (Func b) (fun f => with_blks (<[blk b := insts ++ [i]]> (fn_blks f)) f) ;;;
  ret (llvm.Inst (Func b) (blk b) (length insts)).

(** The lowered result type of a call through a signature. *)
Definition retType (sig : types.Type_) : M aType :=
  match types.Results sig with
  | types.TNil => Void
  | types.TCons _ ty types.TNil => rawType ty
  | rs => rawType (types.TupleType rs)
  end.

(** Modelled from the spec: [Builder.Call] (ssa/expr.go, not under src): a call
    instruction of [fn] on [args] at the insertion point. *)
Definition Call (b : Builder) (fn : Expr) (args : list Expr) : M Expr :=
  t <- retType (raw (Type_ fn)) ;;
  v <- emit b (llvm.Call (impl fn) (map impl args) false) ;;
  ret {| impl := v; Type_ := t |}.

(** [call.impl.SetTailCall(b)] on an instruction of package [k]'s module. *)
Definition SetTailCall (k : Package) (v : llvm.Value) (b : bool) : M unit :=
  match v with
  | llvm.Inst fn bl idx =>
      modFn k fn (fun f =>
        with_blks (alter (fun insts => alter (llvm.SetTailCall b) idx insts) bl (fn_blks f)) f)
  | _ => panic "not a call instruction"
  end.

Definition SetLinkage (k : Package) (fn : Function) (l : llvm.Linkage) : M unit :=
  modFn k fn (with_linkage l).

Definition CreateRetVoid (b : Builder) : M unit :=
  _ <- emit b llvm.RetVoid ;; ret tt.

Definition CreateRet (b : Builder) (v : llvm.Value) : M unit :=
  _ <- emit b (llvm.Ret v) ;; ret tt.

(** Modelled from the spec: [Builder.aggregateValue] (ssa/expr.go, not under
    src): the aggregate of the given fields, as a value of type [t]. *)
Definition aggregateValue (t : aType) (flds : list llvm.Value) : Expr :=
  {| impl := llvm.Agg (ll t) flds; Type_ := t |}.

(** Modelled from the spec: [Builder.CStr] (ssa/expr.go, not under src): a
    constant C string. *)
Definition BuilderCStr (s : string) : M Expr :=
  t <- CStr ;; ret {| impl := llvm.CStr s; Type_ := t |}.

(** Modelled from the spec: [FullName] (ssa/decl.go, not under src): the
    package-qualified name of a package-level object. *)
Definition FullName (pkgPath name : string) : string :=
  pkgPath +:+ "." +:+ name.

(** *** Package (package.go, lines 365-426) *)

Definition rtFunc (p : Package) (fnName : string) : M Expr :=
  pk <- runtime ;;
  o <- Lookup pk fnName ;;
  fn <- asFunc o ;;
  let name := FullName (types.obj_pkg fn) fnName in
  sig <- asSignature (types.obj_type fn) ;;
  f <- NewFunc p name sig InGo ;;
  a <- getFn p f ;;
  ret (fn_Expr a).

Definition pyFunc (p : Package) (fullName : string) (sig : types.Type_) : M Expr :=
  _ <- getPkg p ;;
  modProg (with_needPyInit true) ;;;
  f <- NewFunc p fullName sig InC ;;
  a <- getFn p f ;;
  ret (fn_Expr a).

Definition closureStub (p : Package) (b : Builder) (t : types.Type_) (v : Expr) : M Expr :=
  let name := llvm.Name (impl v) in
  vp <- VoidPtr ;;
  let nilVal := impl (Null vp) in
  pk <- getPkg p ;;
  v <- match stubs pk !! name with
       | Some fn => (a <- getFn p fn ;; ret (fn_Expr a))
       | None =>
           (sig <- asSignature (raw (Type_ v)) ;;
            let n := types.Len (types.Params sig) in
            let nret := types.Len (types.Results sig) in
            let sig := FuncAddCtx ClosureCtx (types.Typ types.UnsafePointer) sig in
            fn <- NewFunc p (ClosureStub +:+ name) sig InC ;;
            SetLinkage p fn llvm.LinkOnceAnyLinkage ;;;
            args <- mapM (fun i => Param p fn (i + 1)) (seq 0 n) ;;
            b <- MakeBody p fn 1 ;;
            call <- Call b v args ;;
            SetTailCall p (impl call) true ;;;
            match nret with
            | 0 => CreateRetVoid b
            | _ => CreateRet b (impl call)
            end ;;;
            modPkg p (fun pk => with_stubs (<[name := fn]> (stubs pk)) pk) ;;;
            a <- getFn p fn ;;
            ret (fn_Expr a))
       end ;;
  ty <- rawType t ;;
  ret (aggregateValue ty [impl v; nilVal]).

(** *** The Python bridge (package.go, lines 477-543) *)

Definition tyImportPyModule : M types.Type_ :=
  memoSig pyImpTy
    (let charPtr := types.Pointer (types.Typ types.Int8) in
     o <- PyObjectPtr ;;
     let objPtr := raw o in
     let params := types.TCons "" charPtr types.TNil in
     let results := types.TCons "" objPtr types.TNil in
     ret (types.Signature params results false)).

Definition tyCallNoArg : M types.Type_ :=
  memoSig callNoArg
    (o <- PyObjectPtr ;;
     let objPtr := raw o in
     let params := types.TCons "" objPtr types.TNil in
     ret (types.Signature params params false)).

Definition tyCallOneArg : M types.Type_ :=
  memoSig callOneArg
    (o <- PyObjectPtr ;;
     let objPtr := raw o in
     let params := types.TCons "" objPtr (types.TCons "" objPtr types.TNil) in
     let results := types.TCons "" objPtr types.TNil in
     ret (types.Signature params results false)).

Definition ImportPyMod (b : Builder) (path : string) : M Expr :=
  let pkg := Pkg b in
  sig <- tyImportPyModule ;;
  fnImp <- pyFunc pkg "PyImport_ImportModule" sig ;;
  s <- BuilderCStr path ;;
  Call b fnImp [s].

Definition NewPyModVar (p : Package) (name : string) : M Global :=
  _ <- getPkg p ;;
  o <- PyObjectPtrPtr ;;
  let objPtr := raw o in
  g <- NewVar p name objPtr InC ;;
  modGlobal p g (fun a =>
    {| gbl_Expr := gbl_Expr a;
       gbl_init := Some (impl (Null (Type_ (gbl_Expr a))));
       gbl_linkage := llvm.LinkOnceAnyLinkage |}) ;;;
  ret g.

Definition pyCall (b : Builder) (fn : Expr) (args : list Expr) : M Expr :=
  let pkg := Pkg b in
  sig <- asSignature (raw (Type_ fn)) ;;
  let n := types.Len (types.Params sig) in
  match n with
  | 0 =>
      s <- tyCallNoArg ;;
      call <- pyFunc pkg "PyObject_CallNoArg" s ;;
      Call b call [fn]
  | 1 =>
      s <- tyCallOneArg ;;
      call <- pyFunc pkg "PyObject_CallOneArg" s ;;
      a0 <- orPanic "index out of range [0] with length 0" (args !! 0) ;;
      Call b call [fn; a0]
  | _ => panic "todo"
  end.

End ssa.

(** ** build: mode resolution and IR-file emission of the driver *)

Module build.

(** [type Mode int], with the constants numbered by [iota]. *)
Definition Mode := Z.
Definition ModeBuild : Mode := 0%Z.
Definition ModeInstall : Mode := 1%Z.
Definition ModeRun : Mode := 2%Z.

Definition needLLFile (mode : Mode) : bool :=
  negb (mode =? ModeBuild)%Z.

(** [*packages.Package], as far as the driver reads it. *)
Record Pkg := {
  Name : string;
  PkgPath : string;
  ExportFile : string
}.

(** What the driver leaves behind: files written with [os.WriteFile], lines
    printed to standard error, and the main packages handed to the linker. *)
Record Effects := {
  files : list (string * string);
  stderr : list string;
  linked : list string
}.

Inductive Out :=
| Done (e : Effects)
| Aborted (e : Effects).           (* [check(err)] panicked *)

Definition effects_of (o : Out) : Effects :=
  match o with
  | Done e => e
  | Aborted e => e
  end.

Section Driver.

(** [cl.NewPackage(prog, aPkg.SSA, pkg.Syntax)] followed by [ret.String()]: the
    IR text of the package, or an error.  The compiler proper is outside the
    driver. *)
Variable compile : Pkg -> option string.

Definition buildPkg (aPkg : Pkg) (mode : Mode) (verbose : bool) (e : Effects) : Out :=
  let pkgPath := PkgPath aPkg in
  let e := if verbose
           then {| files := files e; stderr := stderr e ++ [pkgPath]; linked := linked e |}
           else e in
  if String.eqb pkgPath "unsafe" then Done e
  else
    match compile aPkg with
    | None => Aborted e
    | Some ret =>
        if needLLFile mode
        then Done {| files := files e ++ [(ExportFile aPkg +:+ ".ll", ret)];
                     stderr := stderr e; linked := linked e |}
        else Done e
    end.

(** The loop [for _, pkg := range pkgs { buildPkg(prog, pkg, mode, verbose) }]. *)
Fixpoint buildPkgs (pkgs : list Pkg) (mode : Mode) (verbose : bool) (e : Effects) : Out :=
  match pkgs with
  | [] => Done e
  | p :: r =>
      match buildPkg p mode verbose e with
      | Done e' => buildPkgs r mode verbose e'
      | Aborted e' => Aborted e'
      end
  end.

(** The mode the driver works in: [Do], lines 121-124. *)
Definition resolveMode (confMode : Mode) (initial : list Pkg) : Mode :=
  if (confMode =? ModeBuild)%Z && (length initial =? 1)%nat
  then ModeInstall
  else confMode.

(** [Do] from the resolution of the mode on: [initial] are the root packages
    the loader returned and [pkgs] all packages to compile.  Of [linkMainPkg]
    only the fact that a main package is linked is recorded. *)
Definition Do (confMode : Mode) (initial pkgs : list Pkg) (verbose : bool) (e : Effects) : Out :=
  let mode := resolveMode confMode initial in
  match buildPkgs pkgs mode verbose e with
  | Aborted e' => Aborted e'
  | Done e' =>
      if negb (mode =? ModeBuild)%Z
      then Done {| files := files e'; stderr := stderr e';
                   linked := linked e' ++
                     map PkgPath (filter (fun p => Name p = "main") initial) |}
      else Done e'
  end.

End Driver.

End build.

(** ** Operations on a Program and its Packages, as a labelled step function *)

Import ssa.

(** The requests for a lowered type: [rawType] on any source type, and the
    memoized accessors of [Program]. *)
Inductive TypeReq :=
| ReqRaw (T : types.Type_)
| ReqVoid | ReqVoidPtr | ReqBool | ReqCStr | ReqString | ReqAny | ReqInt
| ReqUintptr | ReqFloat64 | ReqPyObjectPtr | ReqPyObjectPtrPtr.

Definition lower (r : TypeReq) : M aType :=
  match r with
  | ReqRaw T => rawType T
  | ReqVoid => Void
  | ReqVoidPtr => VoidPtr
  | ReqBool => Bool
  | ReqCStr => CStr
  | ReqString => String
  | ReqAny => Any
  | ReqInt => Int
  | ReqUintptr => Uintptr
  | ReqFloat64 => Float64
  | ReqPyObjectPtr => PyObjectPtr
  | ReqPyObjectPtrPtr => PyObjectPtrPtr
  end.

(** The requests to one of a Package's symbol tables: globals, functions,
    foreign thunks (declared through [pyFunc]) and closure stubs. *)
Inductive SymReq :=
| ReqVar (name : string) (typ : types.Type_) (bg : Background)
| ReqFunc (name : string) (sig : types.Type_) (bg : Background)
| ReqThunk (fullName : string) (sig : types.Type_)
| ReqStub (b : Builder) (t : types.Type_) (v : Expr).

(** What a table request yields: the entry (the index of the definition in the
    module) for globals and functions, the expression of the entry otherwise. *)
Inductive Entry :=
| EntryRef (i : nat)
| EntryExpr (e : Expr).

Definition request (p : Package) (r : SymReq) : M Entry :=
  match r with
  | ReqVar name typ bg => g <- NewVar p name typ bg ;; ret (EntryRef g)
  | ReqFunc name sig bg => f <- NewFunc p name sig bg ;; ret (EntryRef f)
  | ReqThunk fullName sig => e <- pyFunc p fullName sig ;; ret (EntryExpr e)
  | ReqStub b t v => e <- closureStub p b t v ;; ret (EntryExpr e)
  end.

Inductive Op :=
| OSetPython (v : any)
| OSetRuntime (v : any)
| ONeedRuntime
| Oruntime
| Opython
| OpyNamed (name : string)
| ONewPackage (name pkgPath : string)
| Olower (r : TypeReq)
| Orequest (p : Package) (r : SymReq)
| OrtFunc (p : Package) (fnName : string)
| OtyImportPyModule
| OtyCallNoArg
| OtyCallOneArg
| OImportPyMod (b : Builder) (path : string)
| ONewPyModVar (p : Package) (name : string)
| OpyCall (b : Builder) (fn : Expr) (args : list Expr)
| OMakeBody (p : Package) (fn : Function) (nblk : nat)
| OCall (b : Builder) (fn : Expr) (args : list Expr).

(** An operation's effect on the store; its result is dropped.  A panicking
    operation leaves the store it had reached. *)
Definition forget {A} (m : M A) : M unit := _ <- m ;; ret tt.

Definition perform (o : Op) : M unit :=
  match o with
  | OSetPython v => SetPython v
  | OSetRuntime v => SetRuntime v
  | ONeedRuntime => forget NeedRuntime
  | Oruntime => forget runtime
  | Opython => forget python
  | OpyNamed name => forget (pyNamed name)
  | ONewPackage name pkgPath => forget (NewPackage name pkgPath)
  | Olower r => forget (lower r)
  | Orequest p r => forget (request p r)
  | OrtFunc p fnName => forget (rtFunc p fnName)
  | OtyImportPyModule => forget tyImportPyModule
  | OtyCallNoArg => forget tyCallNoArg
  | OtyCallOneArg => forget tyCallOneArg
  | OImportPyMod b path => forget (ImportPyMod b path)
  | ONewPyModVar p name => forget (NewPyModVar p name)
  | OpyCall b fn args => forget (pyCall b fn args)
  | OMakeBody p fn nblk => forget (MakeBody p fn nblk)
  | OCall b fn args => forget (Call b fn args)
  end.

Definition exec (o : Op) (w : World) : World := world_of (perform o w).

Definition run (ops : list Op) (w : World) : World := fold_left (fun w o => exec o w) ops w.

(** The operations that declare or perform a foreign call. *)
Definition foreign (o : Op) : bool :=
  match o with
  | Orequest _ (ReqThunk _ _) | OImportPyMod _ _ | OpyCall _ _ _ => true
  | _ => false
  end.

Definition creates_package (o : Op) : bool :=
  match o with
  | ONewPackage _ _ => true
  | _ => false
  end.

(** A computation keeps a relation between the store before and after. *)
Definition preserves {A} (R : World -> World -> Prop) (m : M A) : Prop :=
  forall w, R w (world_of (m w)).

(** ** Vocabulary of the statements *)

(** The dynamic types [SetRuntime] and [SetPython] have a case for. *)
Definition accepted (v : any) : bool :=
  match v with
  | AnyPackage _ | AnySupplier _ => true
  | _ => false
  end.

(** A relation between programs, read on the stores that hold them. *)
Definition lift (Rp : aProgram -> aProgram -> Prop) : World -> World -> Prop :=
  fun w w' => Rp (prog w) (prog w').

(** The resolved runtime handle stays what it is. *)
Definition rt_kept (p p' : aProgram) : Prop :=
  forall h, rt p = Some h -> rt p' = Some h.

(** The resolved Python handle stays what it is. *)
Definition py_kept (p p' : aProgram) : Prop :=
  forall h, py p = Some h -> py p' = Some h.

(** Each flag, once true, is still true. *)
Definition needRuntime_kept (p p' : aProgram) : Prop :=
  needRuntime p = true -> needRuntime p' = true.

Definition needPyInit_kept (p p' : aProgram) : Prop :=
  needPyInit p = true -> needPyInit p' = true.

(** [needPyInit] is not written. *)
Definition needPyInit_same (p p' : aProgram) : Prop :=
  needPyInit p' = needPyInit p.

(** Every cached lowering and every filled memo field stays what it is. *)
Definition cache_kept (p p' : aProgram) : Prop :=
  (forall T t, lookupType T (typs p) = Some t -> lookupType T (typs p') = Some t) /\
  (forall f t, tyfield p f = Some t -> tyfield p' f = Some t).

Definition is_SetRuntime (o : Op) : bool :=
  match o with
  | OSetRuntime _ => true
  | _ => false
  end.

(** [runtime()] called [n] times in a row; the handles returned, last first. *)
Fixpoint runtime_times (n : nat) : M (list (option types.Package)) :=
  match n with
  | 0 => ret []
  | S k => h <- runtime ;; hs <- runtime_times k ;; ret (h :: hs)
  end.

(** Sample inputs: a runtime-support package, a supplier of it, and the Python
    support package with its [Object] type. *)
Definition sample_rt : types.Package :=
  {| types.Path := "github.com/goplus/llgo/internal/runtime"; types.Scope := ∅ |}.

Definition sample_supplier : Supplier :=
  {| sup_id := 7; sup_run := Returns (Some sample_rt) |}.

Definition sample_py : types.Package :=
  {| types.Path := "github.com/goplus/llgo/py";
     types.Scope :=
       {[ "Object" := {| types.obj_kind := types.ObjTypeName;
                         types.obj_pkg := "github.com/goplus/llgo/py";
                         types.obj_type := types.Named "github.com/goplus/llgo/py" "Object" |} ]} |}.

(** A program whose runtime is a supplier and whose Python package is given. *)
Definition sample_world : World :=
  world_of ((SetRuntime (AnySupplier (Some sample_supplier)) ;;;
             SetPython (AnyPackage (Some sample_py))) NewProgram).

(** The store after a first package declared the foreign function
    [PyImport_ImportModule] (a call of [pyFunc]). *)
Definition after_foreign_decl : World :=
  world_of ((k <- NewPackage "a" "example.com/a" ;;
             sig <- tyImportPyModule ;;
             pyFunc k "PyImport_ImportModule" sig) sample_world).

(** The lowering of the components of [T], which [rawType] runs before it
    allocates the lowering of [T] itself. *)
Definition components (T : types.Type_) : M unit :=
  match T with
  | types.Pointer e => (_ <- rawType e ;; ret tt)
  | types.Struct fs => lowerTuple fs
  | types.Signature ps rs _ => (lowerTuple ps ;;; lowerTuple rs)
  | types.TupleType vs => lowerTuple vs
  | _ => ret tt
  end.

(** Where a request for a lowered type finds its earlier result. *)
Definition cached (r : TypeReq) (t : aType) (p : aProgram) : Prop :=
  match r with
  | ReqRaw T => lookupType T (typs p) = Some t
  | ReqVoid => tyfield p voidTy = Some t
  | ReqVoidPtr => tyfield p voidPtr = Some t
  | ReqBool => tyfield p boolTy = Some t
  | ReqCStr => tyfield p cstrTy = Some t
  | ReqString => tyfield p stringTy = Some t
  | ReqAny => tyfield p anyTy = Some t
  | ReqInt => tyfield p intTy = Some t
  | ReqUintptr => tyfield p uintptrTy = Some t
  | ReqFloat64 => tyfield p f64Ty = Some t
  | ReqPyObjectPtr => tyfield p pyObjPtr = Some t
  | ReqPyObjectPtrPtr => tyfield p pyObjPPtr = Some t
  end.

(** The requests that need the Python support package resolved. *)
Definition needs_python (r : TypeReq) : bool :=
  match r with
  | ReqPyObjectPtr | ReqPyObjectPtrPtr => true
  | _ => false
  end.

(** Sample root packages of a build. *)
Definition pkg_main : build.Pkg :=
  {| build.Name := "main"; build.PkgPath := "example.com/cmd/x";
     build.ExportFile := "/cache/x" |}.
Definition pkg_lib : build.Pkg :=
  {| build.Name := "lib"; build.PkgPath := "example.com/lib";
     build.ExportFile := "/cache/lib" |}.
Definition no_effects : build.Effects :=
  {| build.files := []; build.stderr := []; build.linked := [] |}.
Definition sample_compile (p : build.Pkg) : option string :=
  Some ("; ModuleID = '" +:+ build.PkgPath p +:+ "'").

(** A package [main] with a function [main.main] that has one block, a
    builder positioned in it, and two Python callables: one of no parameter
    and one of two. *)
Definition with_caller : World :=
  world_of ((k <- NewPackage "main" "example.com/main" ;;
             f <- NewFunc k "main.main" (types.Signature types.TNil types.TNil false) InGo ;;
             MakeBody k f 1) sample_world).

Definition sample_builder : Builder := {| Func := 0; Pkg := 0; blk := 0 |}.

Definition objPtrT : types.Type_ :=
  types.Pointer (types.Named "github.com/goplus/llgo/py" "Object").

Definition callable (name : string) (params : types.Tuple) : Expr :=
  {| impl := llvm.Global name;
     Type_ := {| addr := 1000; ll := llvm.Of (types.Signature params types.TNil false);
                 raw := types.Signature params types.TNil false; kind := vkConcrete |} |}.

Definition callable0 : Expr := callable "py.f0" types.TNil.
Definition callable2 : Expr :=
  callable "py.f2" (types.TCons "a" objPtrT (types.TCons "b" objPtrT types.TNil)).

(** The function [NewFunc] adds to the module for a fresh name. *)
Definition declared (name : string) (sig : types.Type_) (bg : Background) (t : aType)
  : aFunction :=
  {| fn_Expr := {| impl := llvm.Func name; Type_ := t |};
     fn_params := types.Params sig; fn_bg := bg;
     fn_linkage := llvm.ExternalLinkage; fn_blks := [] |}.

Definition fn_name (f : aFunction) : string := llvm.Name (impl (fn_Expr f)).
Definition gbl_name (g : aGlobal) : string := llvm.Name (impl (gbl_Expr g)).

(** A package with its list of functions replaced. *)
Definition put_funcs (l : list aFunction) (p : aPackage) : aPackage :=
  with_funcs (fun _ => l) p.

(** The return instruction of a stub whose closure has [nret] results. *)
Definition stub_ret (nret : nat) (call : llvm.Value) : llvm.Instr :=
  match nret with
  | 0 => llvm.RetVoid
  | _ => llvm.Ret call
  end.

(** The stub [closureStub] builds for the closure [v] of parameters [ps], as
    function number [fn] of the module, given the lowered type [t] of its
    signature. *)
Definition stub_of (fn : nat) (v : Expr) (ps rs : types.Tuple) (va : bool) (t : aType)
  : aFunction :=
  {| fn_Expr := {| impl := llvm.Func (ClosureStub +:+ llvm.Name (impl v)); Type_ := t |};
     fn_params := types.Params (FuncAddCtx ClosureCtx (types.Typ types.UnsafePointer)
                                  (types.Signature ps rs va));
     fn_bg := InC;
     fn_linkage := llvm.LinkOnceAnyLinkage;
     fn_blks := [[llvm.Call (impl v)
                    (map (fun i => llvm.Param fn (i + 1)) (seq 0 (types.Len ps))) true;
                  stub_ret (types.Len rs) (llvm.Inst fn 0 0)]] |}.

(** Sample closures: [func(x int) int] and [func(x int) (int, int)], and the
    struct type of a closure value. *)
Definition intT : types.Type_ := types.Typ types.Int.

Definition closure_of (name : string) (sig : types.Type_) : Expr :=
  {| impl := llvm.Func name;
     Type_ := {| addr := 2000; ll := llvm.Of sig; raw := sig; kind := vkConcrete |} |}.

Definition sig_one_result : types.Type_ :=
  types.Signature (types.TCons "x" intT types.TNil) (types.TCons "" intT types.TNil) false.

Definition sig_two_results : types.Type_ :=
  types.Signature (types.TCons "x" intT types.TNil)
    (types.TCons "" intT (types.TCons "" intT types.TNil)) false.

Definition closure1 : Expr := closure_of "main.f$1" sig_one_result.
Definition closure2 : Expr := closure_of "main.g$1" sig_two_results.

Definition closureT (sig : types.Type_) : types.Type_ :=
  types.Struct (types.TCons "f" sig
                  (types.TCons "data" (types.Typ types.UnsafePointer) types.TNil)).

(** The blocks of function [fn] of package [p], if both exist. *)
Definition blocks_of (w : World) (p : Package) (fn : Function) : option (list (list llvm.Instr)) :=
  match pkgs w !! p with
  | Some pk => fn_blks <$> mod_funcs (mod_ pk) !! fn
  | None => None
  end.

(** The thunk [pyCall] goes through for a callee of [n] parameters ([n] at
    most 1): its name, the signature it is declared with, and the arguments
    of the call. *)
Definition thunk_name (n : nat) : string :=
  match n with
  | 0 => "PyObject_CallNoArg"
  | _ => "PyObject_CallOneArg"
  end.

Definition thunk_sig (n : nat) : M types.Type_ :=
  match n with
  | 0 => tyCallNoArg
  | _ => tyCallOneArg
  end.

Definition thunk_args (n : nat) (fn : Expr) (args : list Expr) : option (list Expr) :=
  match n with
  | 0 => Some [fn]
  | _ => match args !! 0 with
         | Some a0 => Some [fn; a0]
         | None => None
         end
  end.

(** Every entry of a package's tables stays what it is, and every definition
    of its module keeps its place and its expression.  [ex] names the stub
    keys left out of the comparison. *)
Definition pkg_kept (ex : string -> Prop) (p p' : aPackage) : Prop :=
  (forall n i, vars p !! n = Some i -> vars p' !! n = Some i) /\
  (forall n i, fns p !! n = Some i -> fns p' !! n = Some i) /\
  (forall n i, ~ ex n -> stubs p !! n = Some i -> stubs p' !! n = Some i) /\
  (forall i f, mod_funcs (mod_ p) !! i = Some f ->
     exists f', mod_funcs (mod_ p') !! i = Some f' /\ fn_Expr f' = fn_Expr f) /\
  (forall i g, mod_globals (mod_ p) !! i = Some g ->
     exists g', mod_globals (mod_ p') !! i = Some g' /\ gbl_Expr g' = gbl_Expr g).

Definition tables_kept_but (ex : Package -> string -> Prop) (w w' : World) : Prop :=
  forall k p, pkgs w !! k = Some p ->
    exists p', pkgs w' !! k = Some p' /\ pkg_kept (ex k) p p'.

Definition tables_kept : World -> World -> Prop :=
  tables_kept_but (fun _ _ => False).

(** Every definition of the module is the entry of its name in the table:
    functions in [fns], globals in [vars]. *)
Definition pkg_wf (p : aPackage) : Prop :=
  (forall i f, mod_funcs (mod_ p) !! i = Some f -> fns p !! fn_name f = Some i) /\
  (forall i g, mod_globals (mod_ p) !! i = Some g -> vars p !! gbl_name g = Some i).

Definition wf (w : World) : Prop :=
  forall k p, pkgs w !! k = Some p -> pkg_wf p.

Definition wf_kept (w w' : World) : Prop := wf w -> wf w'.

(** The global [NewVar] adds to the module for a fresh name. *)
Definition declared_var (name : string) (t : aType) : aGlobal :=
  {| gbl_Expr := {| impl := llvm.Global name; Type_ := t |};
     gbl_init := None; gbl_linkage := llvm.ExternalLinkage |}.

(** What a table request that returned [e] has left in package [p]: the
    entry under the requested name, from which a repeated request reads [e]
    again. *)
Definition entered (p : Package) (r : SymReq) (e : Entry) (w : World) : Prop :=
  exists pk, pkgs w !! p = Some pk /\
  match r with
  | ReqVar name _ _ => exists i, vars pk !! name = Some i /\ e = EntryRef i
  | ReqFunc name _ _ => exists i, fns pk !! name = Some i /\ e = EntryRef i
  | ReqThunk name _ =>
      exists i f, fns pk !! name = Some i /\ mod_funcs (mod_ pk) !! i = Some f /\
        e = EntryExpr (fn_Expr f)
  | ReqStub _ t v =>
      exists fn a vp ty,
        stubs pk !! llvm.Name (impl v) = Some fn /\
        mod_funcs (mod_ pk) !! fn = Some a /\
        tyfield (prog w) voidPtr = Some vp /\
        lookupType t (typs (prog w)) = Some ty /\
        e = EntryExpr (aggregateValue ty [impl (fn_Expr a); impl (Null vp)])
  end.

(** The packages are left alone. *)
Definition pkgs_same (w w' : World) : Prop := pkgs w' = pkgs w.

(** A computation that always returns and leaves the packages alone. *)
Definition prog_only {A} (m : M A) : Prop :=
  forall w, exists a w', m w = Ok a w' /\ pkgs w' = pkgs w.

(** * Theorems *)

(** ** Frame reasoning through the monad *)

Section Preserves.

Context (R : World -> World -> Prop) `{!PreOrder R}.

Lemma preserves_ret {A} (a : A) : preserves R (ret a).
Proof. intros w. simpl. reflexivity. Qed.

Lemma preserves_panic {A} msg : preserves R (@panic A msg).
Proof. intros w. simpl. reflexivity. Qed.

Lemma preserves_bind {A B} (m : M A) (f : A -> M B) :
  preserves R m -> (forall a, preserves R (f a)) -> preserves R (bind m f).
Proof.
  intros Hm Hf w. unfold bind. specialize (Hm w).
  destruct (m w) as [a w'|msg w']; simpl in *; [|assumption].
  etransitivity; [exact Hm | apply Hf].
Qed.

Lemma preserves_orPanic {A} msg (o : option A) : preserves R (orPanic msg o).
Proof. destruct o; [apply preserves_ret | apply preserves_panic]. Qed.

Lemma preserves_getProg : preserves R getProg.
Proof. intros w. simpl. reflexivity. Qed.

Lemma preserves_getPkg k : preserves R (getPkg k).
Proof. intros w. unfold getPkg. destruct (pkgs w !! k); simpl; reflexivity. Qed.

Lemma preserves_forget {A} (m : M A) : preserves R m -> preserves R (forget m).
Proof.
  intros H. unfold forget.
  refine (preserves_bind _ _ H _). intros. apply preserves_ret.
Qed.

Lemma preserves_mapM {A B} (f : A -> M B) (l : list A) :
  (forall a, preserves R (f a)) -> preserves R (mapM f l).
Proof.
  intros Hf. induction l as [|a l IH]; simpl.
  - apply preserves_ret.
  - refine (preserves_bind _ _ (Hf a) _). intros b.
    refine (preserves_bind _ _ IH _). intros bs. apply preserves_ret.
Qed.

End Preserves.

(** Relations on the program are kept by everything that leaves it alone. *)
Section Lifted.

Context (Rp : aProgram -> aProgram -> Prop) `{!PreOrder Rp}.

#[local] Instance lift_preorder : PreOrder (lift Rp).
Proof.
  split.
  - intros w. unfold lift. reflexivity.
  - intros a b c H1 H2. unfold lift in *. etransitivity; eassumption.
Qed.

Lemma lifted_modProg f : (forall p, Rp p (f p)) -> preserves (lift Rp) (modProg f).
Proof. intros H w. unfold lift. simpl. apply H. Qed.

Lemma lifted_newType l r k : preserves (lift Rp) (newType l r k).
Proof. intros w. unfold lift. simpl. reflexivity. Qed.

Lemma lifted_callSupplier f : preserves (lift Rp) (callSupplier f).
Proof.
  intros w. unfold lift, callSupplier.
  destruct f as [s|]; [destruct (sup_run s)|]; simpl; reflexivity.
Qed.

Lemma lifted_modPkg k f : preserves (lift Rp) (modPkg k f).
Proof.
  intros w. unfold lift, modPkg, bind, getPkg.
  destruct (pkgs w !! k); simpl; reflexivity.
Qed.

Lemma lifted_allocPkg p : preserves (lift Rp) (allocPkg p).
Proof. intros w. unfold lift. simpl. reflexivity. Qed.

End Lifted.

#[export] Instance lift_preorder_inst Rp `{!PreOrder Rp} : PreOrder (lift Rp).
Proof. apply lift_preorder. assumption. Qed.

Scheme Type_mutind := Induction for types.Type_ Sort Prop
  with Tuple_mutind := Induction for types.Tuple Sort Prop.
Combined Scheme Type_Tuple_mutind from Type_mutind, Tuple_mutind.

Create HintDb ssa_ops.
#[export] Hint Unfold perform lower request SetPython SetRuntime NeedRuntime pyNamed
  Lookup asNamed asSignature asFunc memoSig Pointer PyObjectPtr PyObjectPtrPtr Void
  VoidPtr Bool CStr String Any Int Uintptr Float64 NewPackage getFn modFn NewFunc NewVar
  getGlobal modGlobal Param MakeBody emit retType Call SetTailCall SetLinkage
  CreateRetVoid CreateRet BuilderCStr rtFunc pyFunc closureStub tyImportPyModule
  tyCallNoArg tyCallOneArg ImportPyMod NewPyModVar pyCall : ssa_ops.

(** One step through a computation built from [bind], [ret], [panic] and case
    analysis; [leaf] closes what is left. *)
(** stdpp leaves class premises of an applied lemma as goals. *)
Ltac tc := try (lazymatch goal with |- PreOrder _ => typeclasses eauto end).
Ltac pbind := apply preserves_bind; tc; [ | intros ?; cbv beta ].

Ltac pres_step leaf :=
  lazymatch goal with
  | |- preserves _ (bind _ _) => pbind
  | |- preserves _ (ret _) => apply preserves_ret; tc
  | |- preserves _ (panic _) => apply preserves_panic; tc
  | |- preserves _ getProg => apply preserves_getProg; tc
  | |- preserves _ (getPkg _) => apply preserves_getPkg; tc
  | |- preserves _ (orPanic _ _) => apply preserves_orPanic; tc
  | |- preserves _ (forget _) => apply preserves_forget; tc
  | |- preserves _ (mapM _ _) => apply preserves_mapM; tc; intros ?
  | |- preserves _ (match ?x with _ => _ end) => destruct x
  | |- preserves _ _ => leaf
  end.

Ltac pres leaf := repeat autounfold with ssa_ops; cbv zeta; repeat (pres_step leaf).

Section LiftedOps.

Context (Rp : aProgram -> aProgram -> Prop) `{!PreOrder Rp}.

Lemma lifted_memoType f (compute : M aType) :
  (forall v p, Rp p (with_tyfield f v p)) ->
  preserves (lift Rp) compute -> preserves (lift Rp) (memoType f compute).
Proof.
  intros Hf Hc. unfold memoType.
  pbind; [(apply preserves_getProg; tc) | ].
  match goal with |- preserves _ (match ?x with _ => _ end) => destruct x end;
    [(apply preserves_ret; tc)|].
  pbind; [exact Hc | ].
  pbind; [apply lifted_modProg; tc; intros; apply Hf | (apply preserves_ret; tc)].
Qed.

Lemma lifted_rawType_lowerTuple :
  (forall v p, Rp p (with_typs v p)) ->
  (forall T, preserves (lift Rp) (rawType T)) /\
  (forall ts, preserves (lift Rp) (lowerTuple ts)).
Proof.
  intros Ht.
  assert (Hend : forall (pre : M unit) T, preserves (lift Rp) pre ->
    preserves (lift Rp)
      (pre ;;; t <- newType (llvm.Of T) T (kindOf T) ;;
       modProg (fun p => with_typs ((T, t) :: typs p) p) ;;; ret t)).
  { intros pre T Hpre.
    pbind; [exact Hpre | ].
    pbind; [apply lifted_newType; tc | ].
    pbind; [apply lifted_modProg; tc; intros; apply Ht | (apply preserves_ret; tc)]. }
  apply Type_Tuple_mutind; intros; simpl.
  all: try (pbind; [(apply preserves_getProg; tc) | ];
            match goal with |- preserves _ (match ?x with _ => _ end) => destruct x end;
            [(apply preserves_ret; tc) | apply Hend]).
  all: try (apply preserves_ret; tc).
  - pbind; [assumption | (apply preserves_ret; tc)].
  - assumption.
  - pbind; [assumption | assumption].
  - assumption.
  - pbind; [assumption | assumption].
Qed.

Lemma lifted_rawType T :
  (forall v p, Rp p (with_typs v p)) -> preserves (lift Rp) (rawType T).
Proof. intros H. apply lifted_rawType_lowerTuple. exact H. Qed.

End LiftedOps.

(** ** The relations are preorders *)

#[export] Instance rt_kept_preorder : PreOrder rt_kept.
Proof. split; unfold rt_kept; [intros p h H; exact H | intros a b c H1 H2 h H; auto]. Qed.

#[export] Instance py_kept_preorder : PreOrder py_kept.
Proof. split; unfold py_kept; [intros p h H; exact H | intros a b c H1 H2 h H; auto]. Qed.

#[export] Instance needRuntime_kept_preorder : PreOrder needRuntime_kept.
Proof. split; unfold needRuntime_kept; [intros p H; exact H | intros a b c H1 H2 H; auto]. Qed.

#[export] Instance needPyInit_kept_preorder : PreOrder needPyInit_kept.
Proof. split; unfold needPyInit_kept; [intros p H; exact H | intros a b c H1 H2 H; auto]. Qed.

#[export] Instance needPyInit_same_preorder : PreOrder needPyInit_same.
Proof.
  split; unfold needPyInit_same; [intros p; reflexivity | intros a b c H1 H2; congruence].
Qed.

Create HintDb pres.

(** What is left of a computation after [pres_step]: a write to the program,
    closed by [unf], or a primitive that leaves the program alone. *)
Ltac leaf unf :=
  first
  [ apply lifted_modProg; tc; intros ?; solve [unf]
  | apply lifted_newType; tc
  | apply lifted_callSupplier; tc
  | apply lifted_modPkg; tc
  | apply lifted_allocPkg; tc
  | apply lifted_rawType; tc; intros; solve [unf]
  | apply lifted_memoType; tc; [intros; solve [unf] | ]
  | solve [auto with pres]
  | progress (unfold runtime, python) ].

Ltac by_cases_on_op o :=
  destruct o;
  try match goal with r : SymReq |- _ => destruct r end;
  try match goal with r : TypeReq |- _ => destruct r end;
  simpl in *; try discriminate.

(** ** Resolution of the support packages *)

Lemma runtime_eq (w : World) :
  runtime w =
  match rt (prog w) with
  | Some h => Ok (Some h) (with_prog (with_needRuntime true) w)
  | None =>
      match callSupplier (rtget (prog w)) w with
      | Ok r w' => Ok r (with_prog (fun p => with_needRuntime true (with_rt r p)) w')
      | Panic msg w' => Panic msg w'
      end
  end.
Proof.
  unfold runtime, bind, getProg. destruct (rt (prog w)) as [h|] eqn:E; simpl.
  - unfold with_needRuntime; simpl. rewrite E. reflexivity.
  - destruct (callSupplier (rtget (prog w)) w) as [r w'|msg w']; reflexivity.
Qed.

Lemma python_eq (w : World) :
  python w =
  match py (prog w) with
  | Some h => Ok (Some h) w
  | None =>
      match callSupplier (pyget (prog w)) w with
      | Ok r w' => Ok r (with_prog (with_py r) w')
      | Panic msg w' => Panic msg w'
      end
  end.
Proof.
  unfold python, bind, getProg. destruct (py (prog w)) as [h|] eqn:E; simpl.
  - rewrite E. reflexivity.
  - destruct (callSupplier (pyget (prog w)) w) as [r w'|msg w']; reflexivity.
Qed.

Lemma callSupplier_prog f w : prog (world_of (callSupplier f w)) = prog w.
Proof. unfold callSupplier. destruct f as [s|]; [destruct (sup_run s)|]; reflexivity. Qed.

Lemma rt_kept_runtime : preserves (lift rt_kept) runtime.
Proof.
  intros w. unfold lift, rt_kept. rewrite runtime_eq. intros h Hh. rewrite Hh. simpl. exact Hh.
Qed.

Lemma rt_kept_python : preserves (lift rt_kept) python.
Proof.
  intros w. unfold lift, rt_kept. rewrite python_eq. intros h Hh.
  destruct (py (prog w)); simpl; [exact Hh|].
  pose proof (callSupplier_prog (pyget (prog w)) w) as E.
  destruct (callSupplier (pyget (prog w)) w); simpl in *; rewrite E; exact Hh.
Qed.

#[export] Hint Resolve rt_kept_runtime rt_kept_python : pres.

Lemma perform_rt_kept (o : Op) :
  is_SetRuntime o = false -> preserves (lift rt_kept) (perform o).
Proof.
  intros H. by_cases_on_op o.
  all: pres ltac:(leaf ltac:(unfold rt_kept; simpl; auto)).
Qed.

Lemma run_rt_kept (ops : list Op) (w : World) :
  forallb (fun o => negb (is_SetRuntime o)) ops = true ->
  lift rt_kept w (run ops w).
Proof.
  revert w. induction ops as [|o ops IH]; intros w H; simpl in *.
  - reflexivity.
  - apply andb_prop in H as [Ho Hops].
    transitivity (exec o w).
    + apply perform_rt_kept. destruct (is_SetRuntime o); [discriminate | reflexivity].
    + apply IH. exact Hops.
Qed.

Lemma bind_Ok {A B} (m : M A) (f : A -> M B) w b w' :
  bind m f w = Ok b w' -> exists a w1, m w = Ok a w1 /\ f a w1 = Ok b w'.
Proof.
  unfold bind. destruct (m w) as [a w1|msg w1]; [|discriminate].
  intros H. exists a, w1. split; [reflexivity | exact H].
Qed.

(** C10. [SetRuntime] and [SetPython], given a value whose dynamic type is
    neither [*types.Package] nor [func() *types.Package], return normally and
    leave the whole store, the Program included, as it was. *)
Theorem SetRuntime_SetPython_ignore_other (v : any) (w : World) :
  accepted v = false ->
  SetRuntime v w = Ok tt w /\ SetPython v w = Ok tt w.
Proof.
  intros H. destruct v; simpl in H; try discriminate; split; reflexivity.
Qed.

Lemma SetRuntime_SetPython_ignore_other_witness :
  SetRuntime (AnyOther "string") sample_world = Ok tt sample_world /\
  SetPython (AnyOther "string") sample_world = Ok tt sample_world.
Proof.
  exact (SetRuntime_SetPython_ignore_other (AnyOther "string") sample_world eq_refl).
Defined.

(** C7. [runtime()] returns the resolved runtime package when there is one.
    Otherwise, given a supplier that yields a package, it invokes the supplier
    once, stores the result, sets [needRuntime] and returns the package; after
    that, whatever operations follow (short of another [SetRuntime]), a call
    of [runtime()] returns the same package and invokes nothing. *)
Theorem runtime_resolves_once (w : World) (h : types.Package) :
  (rt (prog w) = Some h ->
   runtime w = Ok (Some h) (with_prog (with_needRuntime true) w)) /\
  (forall s, rt (prog w) = None -> rtget (prog w) = Some s ->
     sup_run s = Returns (Some h) ->
     exists w1, runtime w = Ok (Some h) w1 /\
       calls w1 = calls w ++ [sup_id s] /\
       rt (prog w1) = Some h /\
       needRuntime (prog w1) = true /\
       forall ops, forallb (fun o => negb (is_SetRuntime o)) ops = true ->
         exists w2, runtime (run ops w1) = Ok (Some h) w2 /\
                    calls w2 = calls (run ops w1)).
Proof.
  split.
  - intros H. rewrite runtime_eq, H. reflexivity.
  - intros s Hrt Hget Hrun. rewrite runtime_eq, Hrt, Hget. unfold callSupplier.
    rewrite Hrun. eexists. split; [reflexivity|]. simpl.
    repeat split.
    intros ops Hops.
    match goal with |- context [run ops ?w1] => pose proof (run_rt_kept ops w1 Hops) as K end.
    unfold lift, rt_kept in K. specialize (K h eq_refl).
    rewrite runtime_eq, K. eexists. split; reflexivity.
Qed.

Lemma runtime_resolves_once_witness :
  exists w1, runtime sample_world = Ok (Some sample_rt) w1 /\
    calls w1 = calls sample_world ++ [7] /\
    rt (prog w1) = Some sample_rt /\
    needRuntime (prog w1) = true /\
    forall ops, forallb (fun o => negb (is_SetRuntime o)) ops = true ->
      exists w2, runtime (run ops w1) = Ok (Some sample_rt) w2 /\
                 calls w2 = calls (run ops w1).
Proof.
  exact (proj2 (runtime_resolves_once sample_world sample_rt) sample_supplier
           eq_refl eq_refl eq_refl).
Defined.

(** ** The two flags *)

Lemma perform_needRuntime_kept (o : Op) :
  creates_package o = false -> preserves (lift needRuntime_kept) (perform o).
Proof.
  intros H. by_cases_on_op o.
  all: pres ltac:(leaf ltac:(unfold needRuntime_kept; simpl; auto)).
Qed.

Lemma perform_needPyInit_kept (o : Op) : preserves (lift needPyInit_kept) (perform o).
Proof.
  by_cases_on_op o.
  all: pres ltac:(leaf ltac:(unfold needPyInit_kept; simpl; auto)).
Qed.

Lemma perform_needPyInit_same (o : Op) :
  foreign o = false -> preserves (lift needPyInit_same) (perform o).
Proof.
  intros H. by_cases_on_op o.
  all: pres ltac:(leaf ltac:(unfold needPyInit_same; simpl; auto)).
Qed.

Lemma run_preserves (R : World -> World -> Prop) `{!PreOrder R} (ok : Op -> bool) :
  (forall o, ok o = true -> preserves R (perform o)) ->
  forall ops w, forallb ok ops = true -> R w (run ops w).
Proof.
  intros Hok ops. induction ops as [|o ops IH]; intros w H; simpl in *.
  - reflexivity.
  - apply andb_prop in H as [Ho Hops].
    transitivity (exec o w); [apply Hok, Ho | apply IH, Hops].
Qed.

(** C5, as stated, fails: a Program whose [needPyInit] was set while a first
    package was built still has it set after [NewPackage] creates the next
    package; only [needRuntime] is reset. *)
Lemma NewPackage_leaves_needPyInit_set :
  needPyInit (prog after_foreign_decl) = true /\
  exists k w', NewPackage "b" "example.com/b" after_foreign_decl = Ok k w' /\
    needPyInit (prog w') = true /\ needRuntime (prog w') = false.
Proof.
  split; [reflexivity|]. eexists _, _. split; [reflexivity|]. split; reflexivity.
Qed.

(** C5, amended.  [NewPackage] resets [needRuntime] to false and leaves
    [needPyInit] as it is.  Once [needRuntime] is true it stays true through
    every sequence of operations that creates no package; once [needPyInit] is
    true it stays true through every sequence of operations. *)
Theorem flags_lifetime (w : World) (ops : list Op) (name pkgPath : string) :
  (needRuntime (prog (exec (ONewPackage name pkgPath) w)) = false /\
   needPyInit (prog (exec (ONewPackage name pkgPath) w)) = needPyInit (prog w)) /\
  (forallb (fun o => negb (creates_package o)) ops = true ->
   needRuntime (prog w) = true -> needRuntime (prog (run ops w)) = true) /\
  (needPyInit (prog w) = true -> needPyInit (prog (run ops w)) = true).
Proof.
  split; [split; reflexivity|]. split.
  - intros Hops.
    apply (run_preserves (lift needRuntime_kept) (fun o => negb (creates_package o))); [|exact Hops].
    intros o Ho. apply perform_needRuntime_kept.
    destruct (creates_package o); [discriminate | reflexivity].
  - apply (run_preserves (lift needPyInit_kept) (fun _ => true)).
    + intros o _. apply perform_needPyInit_kept.
    + induction ops; simpl; auto.
Qed.

Lemma flags_lifetime_witness :
  (needRuntime (prog (exec (ONewPackage "b" "example.com/b") after_foreign_decl)) = false /\
   needPyInit (prog (exec (ONewPackage "b" "example.com/b") after_foreign_decl)) =
     needPyInit (prog after_foreign_decl)) /\
  needRuntime (prog (run [Opython; Olower ReqBool] (exec Oruntime after_foreign_decl))) = true /\
  needPyInit (prog (run [ONewPackage "b" "example.com/b"; Oruntime] after_foreign_decl)) = true.
Proof.
  split; [exact (proj1 (flags_lifetime after_foreign_decl [] "b" "example.com/b"))|].
  split.
  - apply (proj1 (proj2 (flags_lifetime (exec Oruntime after_foreign_decl)
                           [Opython; Olower ReqBool] "b" "b"))).
    + reflexivity.
    + vm_compute. reflexivity.
  - apply (proj2 (proj2 (flags_lifetime after_foreign_decl
                           [ONewPackage "b" "example.com/b"; Oruntime] "b" "b"))).
    vm_compute. reflexivity.
Defined.

Lemma kept_after {A} (m : M A) (w : World) :
  preserves (lift needPyInit_kept) m ->
  needPyInit (prog w) = true -> needPyInit (prog (world_of (m w))) = true.
Proof. intros H. apply (H w). Qed.

Lemma pyFunc_sets_needPyInit p fullName sig w e w' :
  pyFunc p fullName sig w = Ok e w' -> needPyInit (prog w') = true.
Proof.
  unfold pyFunc. intros H.
  apply bind_Ok in H as (a & w1 & H1 & H).
  unfold getPkg in H1. destruct (pkgs w !! p); [|discriminate]. inversion H1; subst.
  apply bind_Ok in H as ([] & w2 & H2 & H). inversion H2; subst.
  change w' with (world_of (Ok e w')). rewrite <- H.
  apply kept_after; [|reflexivity].
  pres ltac:(leaf ltac:(unfold needPyInit_kept; simpl; auto)).
Qed.

Lemma foreign_sets_needPyInit (o : Op) (w w' : World) :
  foreign o = true -> perform o w = Ok tt w' -> needPyInit (prog w') = true.
Proof.
  intros Hf H. by_cases_on_op o; unfold forget in H.
  - (* pyFunc *)
    apply bind_Ok in H as (a & w1 & H1 & H). inversion H; subst.
    apply bind_Ok in H1 as (e & w2 & H2 & H1). inversion H1; subst.
    eapply pyFunc_sets_needPyInit; eassumption.
  - (* ImportPyMod *)
    apply bind_Ok in H as (a & w1 & H1 & H). inversion H; subst.
    unfold ImportPyMod in H1.
    apply bind_Ok in H1 as (sig & w2 & _ & H1).
    apply bind_Ok in H1 as (fnImp & w3 & H3 & H1).
    apply pyFunc_sets_needPyInit in H3.
    change w' with (world_of (Ok a w')). rewrite <- H1.
    apply kept_after; [|exact H3].
    pres ltac:(leaf ltac:(unfold needPyInit_kept; simpl; auto)).
  - (* pyCall *)
    apply bind_Ok in H as (a & w1 & H1 & H). inversion H; subst.
    unfold pyCall in H1.
    apply bind_Ok in H1 as (sig & w2 & _ & H1).
    destruct (types.Len (types.Params sig)) as [|[|n]]; [| |discriminate].
    + apply bind_Ok in H1 as (s & w3 & _ & H1).
      apply bind_Ok in H1 as (call & w4 & H4 & H1).
      apply pyFunc_sets_needPyInit in H4.
      change w' with (world_of (Ok a w')). rewrite <- H1.
      apply kept_after; [|exact H4].
      pres ltac:(leaf ltac:(unfold needPyInit_kept; simpl; auto)).
    + apply bind_Ok in H1 as (s & w3 & _ & H1).
      apply bind_Ok in H1 as (call & w4 & H4 & H1).
      apply pyFunc_sets_needPyInit in H4.
      change w' with (world_of (Ok a w')). rewrite <- H1.
      apply kept_after; [|exact H4].
      pres ltac:(leaf ltac:(unfold needPyInit_kept; simpl; auto)).
Qed.

(** C8.  Resolving the Python package ([python()]) leaves [needPyInit] as it
    is, and so does every operation that neither declares nor performs a
    foreign call; every operation that does ([pyFunc], [ImportPyMod],
    [pyCall]) and returns has set the flag. *)
Theorem needPyInit_set_by_foreign_calls_only (o : Op) (w : World) :
  needPyInit (prog (world_of (python w))) = needPyInit (prog w) /\
  (foreign o = false -> needPyInit (prog (exec o w)) = needPyInit (prog w)) /\
  (foreign o = true -> forall w', perform o w = Ok tt w' -> needPyInit (prog w') = true).
Proof.
  split; [|split].
  - assert (H : preserves (lift needPyInit_same) python)
      by (pres ltac:(leaf ltac:(unfold needPyInit_same; simpl; auto))).
    apply (H w).
  - intros Hf. apply (perform_needPyInit_same o Hf w).
  - intros Hf w' H. eapply foreign_sets_needPyInit; eassumption.
Qed.

Lemma needPyInit_set_by_foreign_calls_only_witness :
  needPyInit (prog (exec Opython with_caller)) = needPyInit (prog with_caller) /\
  exists w', perform (OpyCall sample_builder callable0 []) with_caller = Ok tt w' /\
    needPyInit (prog w') = true.
Proof.
  split.
  - exact (proj1 (proj2 (needPyInit_set_by_foreign_calls_only Opython with_caller)) eq_refl).
  - eexists. split; [vm_compute; reflexivity|].
    apply (proj2 (proj2 (needPyInit_set_by_foreign_calls_only
                           (OpyCall sample_builder callable0 []) with_caller)) eq_refl).
    vm_compute. reflexivity.
Defined.

(** ** The cache of lowered types *)

#[export] Instance cache_kept_preorder : PreOrder cache_kept.
Proof.
  split; unfold cache_kept.
  - intros p. split; auto.
  - intros a b c [H1 H2] [H3 H4]. split; auto.
Qed.

Lemma rawType_unfold (T : types.Type_) :
  rawType T =
  (p <- getProg ;;
   match lookupType T (typs p) with
   | Some t => ret t
   | None =>
       components T ;;;
       t <- newType (llvm.Of T) T (kindOf T) ;;
       modProg (fun p => with_typs ((T, t) :: typs p) p) ;;;
       ret t
   end).
Proof. destruct T; reflexivity. Qed.

Lemma lookupType_head T t m : lookupType T ((T, t) :: m) = Some t.
Proof. simpl. destruct (decide (T = T)); [reflexivity | contradiction]. Qed.

Lemma lookupType_tail T T' t m : T <> T' -> lookupType T' ((T, t) :: m) = lookupType T' m.
Proof. intros H. simpl. destruct (decide (T = T')); [contradiction | reflexivity]. Qed.

(** The step of [rawType] after the components: allocation and insertion. *)
Lemma rawType_tail_kept T (pre : M unit) (w : World) :
  lookupType T (typs (prog w)) = None ->
  cache_kept (prog w) (prog (world_of (pre w))) ->
  cache_kept (prog w)
    (prog (world_of ((pre ;;; t <- newType (llvm.Of T) T (kindOf T) ;;
                      modProg (fun p => with_typs ((T, t) :: typs p) p) ;;; ret t) w))).
Proof.
  intros Hmiss Hpre. unfold bind.
  destruct (pre w) as [[] w1|msg w1]; simpl in *; [|exact Hpre].
  destruct Hpre as [Hc Hf]. split; [|exact Hf].
  intros T' t' H. destruct (decide (T = T')) as [->|Hne].
  - rewrite Hmiss in H. discriminate.
  - apply Hc in H. simpl. destruct (decide (T = T')); [contradiction | exact H].
Qed.

Lemma rawType_lowerTuple_cache_kept :
  (forall T, preserves (lift cache_kept) (rawType T)) /\
  (forall ts, preserves (lift cache_kept) (lowerTuple ts)).
Proof.
  apply Type_Tuple_mutind.
  all: try (intros; intros w; unfold lift; rewrite rawType_unfold;
            unfold bind at 1, getProg at 1;
            destruct (lookupType _ (typs (prog w))) eqn:Hmiss;
            [simpl; reflexivity | apply rawType_tail_kept; [exact Hmiss | simpl]]).
  - reflexivity.
  - apply (preserves_forget _ _ (H)).
  - reflexivity.
  - apply H.
  - refine (preserves_bind _ _ _ H _ w). intros _. apply H0.
  - reflexivity.
  - apply H.
  - intros w. unfold lift. simpl. reflexivity.
  - intros name ty IHty r IHr. simpl.
    refine (preserves_bind _ _ _ IHty _). intros _. apply IHr.
Qed.

Lemma rawType_cache_kept T : preserves (lift cache_kept) (rawType T).
Proof. apply rawType_lowerTuple_cache_kept. Qed.

(** [rawType] returns, for every source type and in every store. *)
Lemma rawType_lowerTuple_total :
  (forall T w, exists t w', rawType T w = Ok t w') /\
  (forall ts w, exists w', lowerTuple ts w = Ok tt w').
Proof.
  assert (Htail : forall T (pre : M unit) w,
    (exists w', pre w = Ok tt w') ->
    exists t w', (pre ;;; t <- newType (llvm.Of T) T (kindOf T) ;;
                  modProg (fun p => with_typs ((T, t) :: typs p) p) ;;; ret t) w = Ok t w').
  { intros T pre w [w1 H]. unfold bind. rewrite H. simpl. eauto. }
  apply Type_Tuple_mutind.
  all: try (intros; rewrite rawType_unfold; unfold bind at 1, getProg at 1;
            destruct (lookupType _ (typs (prog w))) eqn:Hmiss;
            [simpl; eauto | apply Htail; simpl]).
  - eauto.
  - unfold bind. destruct (H w) as (t & w1 & ->). eauto.
  - eauto.
  - apply H.
  - unfold bind. destruct (H w) as (w1 & ->). apply H0.
  - eauto.
  - apply H.
  - intros w. simpl. eauto.
  - intros name ty IHty r IHr w. simpl. unfold bind.
    destruct (IHty w) as (t & w1 & ->). apply IHr.
Qed.

Lemma rawType_caches T w t w1 :
  rawType T w = Ok t w1 -> lookupType T (typs (prog w1)) = Some t.
Proof.
  rewrite rawType_unfold. unfold bind at 1, getProg at 1.
  destruct (lookupType T (typs (prog w))) eqn:E.
  - intros H. inversion H; subst. exact E.
  - intros H. apply bind_Ok in H as ([] & w2 & _ & H).
    unfold bind, newType, modProg, ret in H. inversion H; subst. simpl.
    apply lookupType_head.
Qed.

Lemma rawType_hit T w t :
  lookupType T (typs (prog w)) = Some t -> rawType T w = Ok t w.
Proof.
  intros H. rewrite rawType_unfold. unfold bind, getProg. rewrite H. reflexivity.
Qed.

Lemma memoType_caches f c w t w1 :
  memoType f c w = Ok t w1 -> tyfield (prog w1) f = Some t.
Proof.
  unfold memoType, bind at 1, getProg at 1.
  destruct (tyfield (prog w) f) eqn:E.
  - intros H. inversion H; subst. exact E.
  - intros H. apply bind_Ok in H as (t' & w2 & _ & H).
    unfold bind, modProg, ret in H. inversion H; subst. simpl.
    destruct (decide (f = f)); [reflexivity | contradiction].
Qed.

Lemma memoType_hit f c w t :
  tyfield (prog w) f = Some t -> memoType f c w = Ok t w.
Proof. intros H. unfold memoType, bind, getProg. rewrite H. reflexivity. Qed.

Lemma memoType_cache_kept f (c : M aType) :
  preserves (lift cache_kept) c -> preserves (lift cache_kept) (memoType f c).
Proof.
  intros Hc w. unfold memoType, bind at 1, getProg at 1.
  destruct (tyfield (prog w) f) eqn:E; [simpl; reflexivity|].
  unfold bind. specialize (Hc w).
  destruct (c w) as [t w1|msg w1]; simpl in *; [|exact Hc].
  destruct Hc as [H1 H2]. split; [exact H1|].
  intros g t' Hg. simpl. destruct (decide (g = f)) as [->|Hne]; [congruence | auto].
Qed.

Ltac leaf_cache :=
  first
  [ apply rawType_cache_kept
  | apply memoType_cache_kept
  | apply lifted_modProg; tc; intros ?; solve [unfold cache_kept; simpl; auto]
  | apply lifted_newType; tc
  | apply lifted_callSupplier; tc
  | apply lifted_modPkg; tc
  | apply lifted_allocPkg; tc
  | progress (unfold runtime, python) ].

Lemma perform_cache_kept (o : Op) : preserves (lift cache_kept) (perform o).
Proof. by_cases_on_op o. all: pres leaf_cache. Qed.

Lemma run_cache_kept (ops : list Op) (w : World) : lift cache_kept w (run ops w).
Proof.
  apply (run_preserves (lift cache_kept) (fun _ => true)).
  - intros o _. apply perform_cache_kept.
  - induction ops; simpl; auto.
Qed.

Lemma lower_caches r w t w1 : lower r w = Ok t w1 -> cached r t (prog w1).
Proof.
  destruct r; simpl; first [apply rawType_caches | apply memoType_caches].
Qed.

Lemma cached_kept r t p p' : cache_kept p p' -> cached r t p -> cached r t p'.
Proof. intros [H1 H2]. destruct r; simpl; auto. Qed.

Lemma lower_hit r w t : cached r t (prog w) -> lower r w = Ok t w.
Proof.
  destruct r; simpl; first [apply rawType_hit | apply memoType_hit].
Qed.

Lemma memoType_total f (c : M aType) w :
  (forall w, exists t w', c w = Ok t w') -> exists t w', memoType f c w = Ok t w'.
Proof.
  intros Hc. unfold memoType, bind, getProg.
  destruct (tyfield (prog w) f); [simpl; eauto|].
  destruct (Hc w) as (t & w1 & ->). simpl. eauto.
Qed.

(** C1.  A request for the lowering of a source type (through [rawType], or
    through one of the memoized accessors of the Program) that returned a
    [Type] returns that very [Type] when it is issued again, whatever
    operations ran on the Program in between, and the repeated request leaves
    the store untouched: nothing is recomputed or allocated.  Requests that do
    not need the Python package always return. *)
Theorem type_identity (r : TypeReq) (w : World) (ops : list Op) :
  (needs_python r = false -> exists t w1, lower r w = Ok t w1) /\
  (forall t w1, lower r w = Ok t w1 -> lower r (run ops w1) = Ok t (run ops w1)).
Proof.
  split.
  - intros H. destruct r; simpl in *; try discriminate.
    + apply rawType_lowerTuple_total.
    + apply memoType_total. intros w0. unfold newType. eauto.
    + apply memoType_total. intros. apply rawType_lowerTuple_total.
    + apply memoType_total. intros. apply rawType_lowerTuple_total.
    + apply memoType_total. intros. apply rawType_lowerTuple_total.
    + apply memoType_total. intros. apply rawType_lowerTuple_total.
    + apply memoType_total. intros. apply rawType_lowerTuple_total.
    + apply memoType_total. intros. apply rawType_lowerTuple_total.
    + apply memoType_total. intros. apply rawType_lowerTuple_total.
    + apply memoType_total. intros. apply rawType_lowerTuple_total.
  - intros t w1 H. apply lower_hit.
    eapply cached_kept; [apply (run_cache_kept ops w1) | eapply lower_caches, H].
Qed.

Lemma type_identity_witness :
  exists t w1, lower (ReqRaw (types.Pointer (types.Typ types.Int8))) sample_world = Ok t w1 /\
    lower (ReqRaw (types.Pointer (types.Typ types.Int8)))
      (run [Olower ReqCStr; ONewPackage "a" "example.com/a"; Olower ReqPyObjectPtr] w1) =
    Ok t (run [Olower ReqCStr; ONewPackage "a" "example.com/a"; Olower ReqPyObjectPtr] w1).
Proof.
  destruct (proj1 (type_identity (ReqRaw (types.Pointer (types.Typ types.Int8)))
                     sample_world []) eq_refl) as (t & w1 & H).
  exists t, w1. split; [exact H|].
  exact (proj2 (type_identity _ sample_world _) t w1 H).
Defined.

(** ** The build driver *)

Lemma buildPkg_files_ModeBuild compile p verbose e :
  build.files (build.effects_of (build.buildPkg compile p build.ModeBuild verbose e)) =
  build.files e.
Proof.
  unfold build.buildPkg. destruct verbose; simpl;
    destruct (String.eqb _ _); simpl; try reflexivity;
    destruct (compile p); reflexivity.
Qed.

Lemma buildPkgs_files_ModeBuild compile pkgs verbose e :
  build.files (build.effects_of (build.buildPkgs compile pkgs build.ModeBuild verbose e)) =
  build.files e.
Proof.
  revert e. induction pkgs as [|p r IH]; intros e; simpl; [reflexivity|].
  pose proof (buildPkg_files_ModeBuild compile p verbose e) as H.
  destruct (build.buildPkg compile p build.ModeBuild verbose e) as [e'|e']; simpl in *.
  - rewrite IH. exact H.
  - exact H.
Qed.

(** C9.  With the requested mode build and exactly one root package the driver
    works in install mode; with build and more than one root package it stays
    in build mode and the whole run writes no [.ll] file.  [needLLFile] is
    false in build mode and in no other mode: in build mode [buildPkg] writes
    no file for any package, and in every other mode it writes
    [ExportFile + ".ll"] for every package it compiles (every package but
    [unsafe], for which it returns before compiling). *)
Theorem mode_resolution_and_ll_emission
  (compile : build.Pkg -> option string) (initial pkgs : list build.Pkg)
  (pkg : build.Pkg) (mode : build.Mode) (verbose : bool) (e : build.Effects) :
  (length initial = 1 -> build.resolveMode build.ModeBuild initial = build.ModeInstall) /\
  (1 < length initial ->
     build.resolveMode build.ModeBuild initial = build.ModeBuild /\
     build.files (build.effects_of (build.Do compile build.ModeBuild initial pkgs verbose e))
       = build.files e) /\
  (build.needLLFile mode = false <-> mode = build.ModeBuild) /\
  build.files (build.effects_of (build.buildPkg compile pkg build.ModeBuild verbose e))
    = build.files e /\
  (mode <> build.ModeBuild -> build.PkgPath pkg <> "unsafe" ->
   forall ir, compile pkg = Some ir ->
     exists e', build.buildPkg compile pkg mode verbose e = build.Done e' /\
       build.files e' = build.files e ++ [(build.ExportFile pkg +:+ ".ll", ir)]).
Proof.
  split; [|split; [|split; [|split]]].
  - intros H. unfold build.resolveMode. rewrite H. reflexivity.
  - intros H. assert (E : build.resolveMode build.ModeBuild initial = build.ModeBuild).
    { unfold build.resolveMode. simpl.
      destruct (Nat.eqb_spec (length initial) 1); [lia | reflexivity]. }
    split; [exact E|]. unfold build.Do. rewrite E.
    pose proof (buildPkgs_files_ModeBuild compile pkgs verbose e) as H1.
    destruct (build.buildPkgs compile pkgs build.ModeBuild verbose e); simpl in *; exact H1.
  - unfold build.needLLFile, build.ModeBuild. rewrite negb_false_iff. apply Z.eqb_eq.
  - apply buildPkg_files_ModeBuild.
  - intros Hm Hu ir Hc. unfold build.buildPkg.
    destruct (String.eqb_spec (build.PkgPath pkg) "unsafe") as [Heq|_]; [contradiction|].
    assert (Hn : build.needLLFile mode = true).
    { unfold build.needLLFile. apply negb_true_iff, Z.eqb_neq. exact Hm. }
    destruct verbose; simpl; rewrite Hc, Hn; eexists; split; reflexivity.
Qed.

Lemma mode_resolution_and_ll_emission_witness :
  build.resolveMode build.ModeBuild [pkg_main] = build.ModeInstall /\
  (build.resolveMode build.ModeBuild [pkg_main; pkg_lib] = build.ModeBuild /\
   build.files (build.effects_of
     (build.Do sample_compile build.ModeBuild [pkg_main; pkg_lib] [pkg_lib; pkg_main]
        false no_effects)) = []) /\
  (exists e', build.buildPkg sample_compile pkg_lib build.ModeInstall false no_effects
                = build.Done e' /\
     build.files e' = [("/cache/lib.ll", "; ModuleID = 'example.com/lib'")]).
Proof.
  pose proof (mode_resolution_and_ll_emission sample_compile [pkg_main] [] pkg_lib
                build.ModeInstall false no_effects) as H1.
  pose proof (mode_resolution_and_ll_emission sample_compile [pkg_main; pkg_lib]
                [pkg_lib; pkg_main] pkg_lib build.ModeInstall false no_effects) as H2.
  split; [exact (proj1 H1 eq_refl)|]. split.
  - apply (proj1 (proj2 H2)). simpl. lia.
  - apply (proj2 (proj2 (proj2 (proj2 H2)))).
    + discriminate.
    + discriminate.
    + reflexivity.
Defined.

(** ** Forward evaluation: what each step returns and does to a package *)

#[export] Instance pkgs_same_preorder : PreOrder pkgs_same.
Proof.
  split; unfold pkgs_same; [intros w; reflexivity | intros a b c H1 H2; congruence].
Qed.

Lemma pkgs_same_modProg f : preserves pkgs_same (modProg f).
Proof. intros w. reflexivity. Qed.

Lemma pkgs_same_newType l r k : preserves pkgs_same (newType l r k).
Proof. intros w. reflexivity. Qed.

Lemma pkgs_same_callSupplier f : preserves pkgs_same (callSupplier f).
Proof.
  intros w. unfold pkgs_same, callSupplier.
  destruct f as [s|]; [destruct (sup_run s)|]; reflexivity.
Qed.

Lemma pkgs_same_rawType_lowerTuple :
  (forall T, preserves pkgs_same (rawType T)) /\
  (forall ts, preserves pkgs_same (lowerTuple ts)).
Proof.
  assert (Hend : forall (pre : M unit) T, preserves pkgs_same pre ->
    preserves pkgs_same
      (pre ;;; t <- newType (llvm.Of T) T (kindOf T) ;;
       modProg (fun p => with_typs ((T, t) :: typs p) p) ;;; ret t)).
  { intros pre T Hpre.
    pbind; [exact Hpre | ].
    pbind; [apply pkgs_same_newType | ].
    pbind; [apply pkgs_same_modProg | apply preserves_ret; tc]. }
  apply Type_Tuple_mutind; intros; rewrite ?rawType_unfold.
  all: try (pbind; [apply preserves_getProg; tc | ];
            match goal with |- preserves _ (match ?x with _ => _ end) => destruct x end;
            [apply preserves_ret; tc | apply Hend; simpl]).
  all: try (apply preserves_ret; tc).
  - pbind; [assumption | apply preserves_ret; tc].
  - assumption.
  - pbind; [assumption | assumption].
  - assumption.
  - simpl. pbind; [assumption | assumption].
Qed.

Lemma pkgs_same_rawType T : preserves pkgs_same (rawType T).
Proof. apply pkgs_same_rawType_lowerTuple. Qed.

Lemma pkgs_same_memoType f (c : M aType) :
  preserves pkgs_same c -> preserves pkgs_same (memoType f c).
Proof.
  intros Hc. unfold memoType.
  pbind; [apply preserves_getProg; tc | ].
  match goal with |- preserves _ (match ?x with _ => _ end) => destruct x end;
    [apply preserves_ret; tc|].
  pbind; [exact Hc | ].
  pbind; [apply pkgs_same_modProg | apply preserves_ret; tc].
Qed.

Ltac leaf_pkgs :=
  first
  [ apply pkgs_same_rawType
  | apply pkgs_same_memoType
  | apply pkgs_same_modProg
  | apply pkgs_same_newType
  | apply pkgs_same_callSupplier
  | progress (unfold runtime, python) ].

Lemma prog_only_rawType T : prog_only (rawType T).
Proof.
  intros w. destruct (proj1 rawType_lowerTuple_total T w) as (t & w' & E).
  exists t, w'. split; [exact E|].
  pose proof (pkgs_same_rawType T w) as H. rewrite E in H. exact H.
Qed.

Lemma prog_only_memoType f (c : M aType) : prog_only c -> prog_only (memoType f c).
Proof.
  intros Hc w.
  destruct (memoType_total f c w) as (t & w' & E).
  { intros w0. destruct (Hc w0) as (a & w1 & E & _). eauto. }
  exists t, w'. split; [exact E|].
  assert (Hp : preserves pkgs_same c).
  { intros w0. destruct (Hc w0) as (a & w1 & E0 & H0). rewrite E0. exact H0. }
  pose proof (pkgs_same_memoType f c Hp w) as H. rewrite E in H. exact H.
Qed.

Lemma prog_only_Void : prog_only Void.
Proof.
  apply prog_only_memoType. intros w. eexists _, _. split; reflexivity.
Qed.

Lemma prog_only_VoidPtr : prog_only VoidPtr.
Proof. apply prog_only_memoType, prog_only_rawType. Qed.

Lemma prog_only_retType sig : prog_only (retType sig).
Proof.
  unfold retType. destruct (types.Results sig) as [|n ty [|]].
  - apply prog_only_Void.
  - apply prog_only_rawType.
  - apply prog_only_rawType.
Qed.

Lemma bind_step {A B} (m : M A) (f : A -> M B) w a w' :
  m w = Ok a w' -> bind m f w = f a w'.
Proof. intros H. unfold bind. rewrite H. reflexivity. Qed.

Ltac bstep E := rewrite (bind_step _ _ _ _ _ E); cbv beta.

Lemma bind_orPanic_Some {A B} msg (a : A) (f : A -> M B) w :
  bind (orPanic msg (Some a)) f w = f a w.
Proof. reflexivity. Qed.

Lemma getPkg_ok k w p : pkgs w !! k = Some p -> getPkg k w = Ok p w.
Proof. intros H. unfold getPkg. rewrite H. reflexivity. Qed.

Lemma modPkg_ok k f w p :
  pkgs w !! k = Some p ->
  exists w', modPkg k f w = Ok tt w' /\ pkgs w' = <[k := f p]> (pkgs w) /\
             pkgs w' !! k = Some (f p).
Proof.
  intros H. unfold modPkg. bstep ((getPkg_ok k w p H)).
  eexists. split; [reflexivity|]. simpl. split; [reflexivity|].
  apply list_lookup_insert_eq. eapply lookup_lt_Some, H.
Qed.

Lemma getFn_ok k fn w p a :
  pkgs w !! k = Some p -> mod_funcs (mod_ p) !! fn = Some a -> getFn k fn w = Ok a w.
Proof.
  intros H Ha. unfold getFn. bstep ((getPkg_ok k w p H)).
  rewrite Ha. reflexivity.
Qed.

Lemma modFn_ok k fn g w p a :
  pkgs w !! k = Some p -> mod_funcs (mod_ p) !! fn = Some a ->
  exists w', modFn k fn g w = Ok tt w' /\
    pkgs w' !! k = Some (with_funcs (fun l => <[fn := g a]> l) p).
Proof.
  intros H Ha. unfold modFn. bstep ((getFn_ok k fn w p a H Ha)).
  destruct (modPkg_ok k (with_funcs (fun l => <[fn := g a]> l)) w p H) as (w' & E & _ & Hk).
  exists w'. split; assumption.
Qed.

Lemma NewFunc_hit k name sig bg w p fn :
  pkgs w !! k = Some p -> fns p !! name = Some fn -> NewFunc k name sig bg w = Ok fn w.
Proof.
  intros H Hf. unfold NewFunc. bstep ((getPkg_ok k w p H)).
  unfold Function in *. rewrite Hf. reflexivity.
Qed.

Lemma NewFunc_miss k name sig bg w p :
  pkgs w !! k = Some p -> fns p !! name = None ->
  exists t w', NewFunc k name sig bg w = Ok (length (mod_funcs (mod_ p))) w' /\
    pkgs w' !! k =
      Some (with_fns (<[name := length (mod_funcs (mod_ p))]> (fns p))
              (with_funcs (fun l => l ++ [declared name sig bg t]) p)).
Proof.
  intros H Hf. unfold NewFunc. bstep ((getPkg_ok k w p H)).
  unfold Function in *. rewrite Hf. destruct (prog_only_rawType sig w) as (t & w1 & E & Hp).
  bstep (E).
  assert (H1 : pkgs w1 !! k = Some p) by (rewrite Hp; exact H).
  match goal with |- context [modPkg k ?f] =>
    destruct (modPkg_ok k f w1 p H1) as (w2 & E2 & _ & Hk) end.
  exists t, w2. bstep (E2). split; [reflexivity | exact Hk].
Qed.

Lemma Len_tuple_app t u : types.Len (types.tuple_app t u) = types.Len t + types.Len u.
Proof. induction t; simpl; [reflexivity | rewrite IHt; reflexivity]. Qed.

Lemma At_is_Some t i : i < types.Len t -> is_Some (types.At t i).
Proof.
  revert i. induction t as [|n ty r IH]; intros i H; simpl in *; [lia|].
  destruct i; [eauto | apply IH; lia].
Qed.

Lemma At_None t i : types.Len t <= i -> types.At t i = None.
Proof.
  revert i. induction t as [|n ty r IH]; intros i H; simpl in *; [reflexivity|].
  destruct i; [lia | apply IH; lia].
Qed.

Lemma Param_ok k fn i w p a :
  pkgs w !! k = Some p -> mod_funcs (mod_ p) !! fn = Some a ->
  i < types.Len (fn_params a) ->
  exists e w', Param k fn i w = Ok e w' /\ impl e = llvm.Param fn i /\ pkgs w' = pkgs w.
Proof.
  intros H Ha Hi. unfold Param. bstep ((getFn_ok k fn w p a H Ha)).
  destruct (At_is_Some _ _ Hi) as [ty Hty]. rewrite Hty, bind_orPanic_Some.
  destruct (prog_only_rawType ty w) as (t & w1 & E & Hp).
  bstep (E). eexists _, _. split; [reflexivity|]. split; [reflexivity | exact Hp].
Qed.

Lemma Param_out_of_range k fn i w p a :
  pkgs w !! k = Some p -> mod_funcs (mod_ p) !! fn = Some a ->
  types.Len (fn_params a) <= i ->
  Param k fn i w = Panic "index out of range" w.
Proof.
  intros H Ha Hi. unfold Param. bstep ((getFn_ok k fn w p a H Ha)).
  rewrite (At_None _ _ Hi). reflexivity.
Qed.

Lemma mapM_Param_ok k fn (l : list nat) w p a :
  pkgs w !! k = Some p -> mod_funcs (mod_ p) !! fn = Some a ->
  Forall (fun i => i + 1 < types.Len (fn_params a)) l ->
  exists args w', mapM (fun i => Param k fn (i + 1)) l w = Ok args w' /\
    map impl args = map (fun i => llvm.Param fn (i + 1)) l /\ pkgs w' = pkgs w.
Proof.
  intros H Ha. revert w H. induction l as [|i l IH]; intros w H Hl; simpl.
  - eexists _, _. split; [reflexivity|]. split; reflexivity.
  - inversion Hl; subst.
    destruct (Param_ok k fn (i + 1) w p a H Ha) as (e & w1 & E & Hi & Hp); [assumption|].
    bstep (E).
    assert (H1 : pkgs w1 !! k = Some p) by (rewrite Hp; exact H).
    destruct (IH w1 H1) as (args & w2 & E2 & Hm & Hp2); [assumption|].
    bstep (E2). eexists _, _. split; [reflexivity|].
    simpl. rewrite Hi, Hm. split; [reflexivity | congruence].
Qed.

Lemma emit_ok (b : Builder) i w p a insts :
  pkgs w !! Pkg b = Some p -> mod_funcs (mod_ p) !! Func b = Some a ->
  fn_blks a !! blk b = Some insts ->
  exists w', emit b i w = Ok (llvm.Inst (Func b) (blk b) (length insts)) w' /\
    pkgs w' !! Pkg b =
      Some (with_funcs
              (fun l => <[Func b := with_blks (<[blk b := insts ++ [i]]> (fn_blks a)) a]> l) p).
Proof.
  intros H Ha Hb. unfold emit.
  bstep ((getFn_ok _ _ w p a H Ha)). rewrite Hb, bind_orPanic_Some.
  match goal with |- context [modFn _ _ ?g] =>
    destruct (modFn_ok (Pkg b) (Func b) g w p a H Ha) as (w' & E & Hk) end.
  bstep (E). exists w'. split; [reflexivity | exact Hk].
Qed.

Lemma Call_ok (b : Builder) fn args w p a insts :
  pkgs w !! Pkg b = Some p -> mod_funcs (mod_ p) !! Func b = Some a ->
  fn_blks a !! blk b = Some insts ->
  exists e w', Call b fn args w = Ok e w' /\
    impl e = llvm.Inst (Func b) (blk b) (length insts) /\
    pkgs w' !! Pkg b =
      Some (with_funcs
              (fun l => <[Func b := with_blks
                 (<[blk b := insts ++ [llvm.Call (impl fn) (map impl args) false]]> (fn_blks a)) a]> l)
              p).
Proof.
  intros H Ha Hb. unfold Call.
  destruct (prog_only_retType (raw (Type_ fn)) w) as (t & w1 & E & Hp).
  bstep (E).
  assert (H1 : pkgs w1 !! Pkg b = Some p) by (rewrite Hp; exact H).
  destruct (emit_ok b (llvm.Call (impl fn) (map impl args) false) w1 p a insts H1 Ha Hb)
    as (w2 & E2 & Hk).
  bstep (E2). eexists _, _. split; [reflexivity|].
  split; [reflexivity | exact Hk].
Qed.

(** ** The closure stub, created *)

Lemma lookup_snoc {A} (F : list A) (f : A) : (F ++ [f]) !! length F = Some f.
Proof. rewrite lookup_app_r by lia. rewrite Nat.sub_diag. reflexivity. Qed.

Lemma insert_snoc {A} (F : list A) (f g : A) : <[length F := g]> (F ++ [f]) = F ++ [g].
Proof. rewrite insert_app_r_alt by lia. rewrite Nat.sub_diag. reflexivity. Qed.

Lemma bind_assoc {A B C} (m : M A) (f : A -> M B) (g : B -> M C) w :
  bind (bind m f) g w = bind m (fun a => bind (f a) g) w.
Proof. unfold bind. destruct (m w); reflexivity. Qed.

Lemma bind_ret {A B} (a : A) (f : A -> M B) w : bind (ret a) f w = f a w.
Proof. reflexivity. Qed.

Lemma getFn_put k w F f q :
  pkgs w !! k = Some (put_funcs (F ++ [f]) q) -> getFn k (length F) w = Ok f w.
Proof. intros H. eapply getFn_ok; [exact H | apply lookup_snoc]. Qed.

Lemma modFn_put k g w F f q :
  pkgs w !! k = Some (put_funcs (F ++ [f]) q) ->
  exists w', modFn k (length F) g w = Ok tt w' /\
    pkgs w' !! k = Some (put_funcs (F ++ [g f]) q).
Proof.
  intros H.
  destruct (modFn_ok k (length F) g w _ f H (lookup_snoc F f)) as (w' & E & Hk).
  exists w'. split; [exact E|]. rewrite Hk. unfold put_funcs, with_funcs. simpl.
  rewrite insert_snoc. reflexivity.
Qed.

Lemma emit_put p i w F f q insts n :
  pkgs w !! p = Some (put_funcs (F ++ [f]) q) -> fn_blks f !! n = Some insts ->
  exists w', emit {| Func := length F; Pkg := p; blk := n |} i w =
               Ok (llvm.Inst (length F) n (length insts)) w' /\
    pkgs w' !! p =
      Some (put_funcs (F ++ [with_blks (<[n := insts ++ [i]]> (fn_blks f)) f]) q).
Proof.
  intros H Hb.
  destruct (emit_ok {| Func := length F; Pkg := p; blk := n |} i w _ f insts H
              (lookup_snoc F f) Hb) as (w' & E & Hk).
  exists w'. split; [exact E|]. cbn [Pkg Func blk] in Hk. rewrite Hk.
  unfold put_funcs, with_funcs. simpl. rewrite insert_snoc. reflexivity.
Qed.

Lemma Call_put p fn args w F f q insts n :
  pkgs w !! p = Some (put_funcs (F ++ [f]) q) -> fn_blks f !! n = Some insts ->
  exists e w', Call {| Func := length F; Pkg := p; blk := n |} fn args w = Ok e w' /\
    impl e = llvm.Inst (length F) n (length insts) /\
    pkgs w' !! p =
      Some (put_funcs
              (F ++ [with_blks
                 (<[n := insts ++ [llvm.Call (impl fn) (map impl args) false]]> (fn_blks f)) f])
              q).
Proof.
  intros H Hb.
  destruct (Call_ok {| Func := length F; Pkg := p; blk := n |} fn args w _ f insts H
              (lookup_snoc F f) Hb) as (e & w' & E & He & Hk).
  exists e, w'. split; [exact E|]. split; [exact He|].
  cbn [Pkg Func blk] in Hk. rewrite Hk.
  unfold put_funcs, with_funcs. simpl. rewrite insert_snoc. reflexivity.
Qed.

Lemma closureStub_fresh p b t v w pk ps rs va :
  pkgs w !! p = Some pk ->
  stubs pk !! llvm.Name (impl v) = None ->
  fns pk !! (ClosureStub +:+ llvm.Name (impl v)) = None ->
  raw (Type_ v) = types.Signature ps rs va ->
  exists e w1 ty vp tsig,
    closureStub p b t v w = Ok e w1 /\
    e = aggregateValue ty
          [llvm.Func (ClosureStub +:+ llvm.Name (impl v)); llvm.Null (ll vp)] /\
    pkgs w1 !! p =
      Some (with_stubs (<[llvm.Name (impl v) := length (mod_funcs (mod_ pk))]> (stubs pk))
              (put_funcs
                 (mod_funcs (mod_ pk) ++
                    [stub_of (length (mod_funcs (mod_ pk))) v ps rs va tsig])
                 (with_fns (<[ClosureStub +:+ llvm.Name (impl v) :=
                              length (mod_funcs (mod_ pk))]> (fns pk)) pk))).
Proof.
  intros Hk Hs Hf Hsig. unfold closureStub. cbv zeta.
  destruct (prog_only_VoidPtr w) as (vp & w0 & E0 & Hp0). bstep E0.
  assert (Hk0 : pkgs w0 !! p = Some pk) by (rewrite Hp0; exact Hk).
  bstep (getPkg_ok p w0 pk Hk0).
  unfold Function in *. rewrite Hs. unfold bind at 1.
  rewrite Hsig. unfold asSignature. cbv iota.
  rewrite bind_ret. cbv beta zeta.
  set (F := mod_funcs (mod_ pk)) in *.
  set (name := llvm.Name (impl v)) in *.
  set (sig' := FuncAddCtx ClosureCtx (types.Typ types.UnsafePointer)
                 (types.Signature ps rs va)).
  (* the stub is declared *)
  destruct (NewFunc_miss p (ClosureStub +:+ name) sig' InC w0 pk Hk0 Hf)
    as (tsig & w1 & E1 & Hk1).
  rewrite (bind_step _ _ _ _ _ E1). cbv beta.
  set (q := with_fns (<[ClosureStub +:+ name := length F]> (fns pk)) pk) in *.
  change (pkgs w1 !! p = Some (put_funcs (F ++ [declared (ClosureStub +:+ name) sig' InC tsig]) q))
    in Hk1.
  (* its linkage *)
  unfold SetLinkage.
  destruct (modFn_put p (with_linkage llvm.LinkOnceAnyLinkage) w1 F _ q Hk1) as (w2 & E2 & Hk2).
  rewrite (bind_step _ _ _ _ _ E2). cbv beta.
  (* the arguments *)
  match type of Hk2 with _ = Some (put_funcs (_ ++ [?f]) _) =>
    destruct (mapM_Param_ok p (length F) (seq 0 (types.Len ps)) w2 _ f Hk2 (lookup_snoc F f))
      as (args & w3 & E3 & Hargs & Hp3)
  end.
  { apply Forall_forall. intros i Hi. apply elem_of_seq in Hi. simpl.
    rewrite Len_tuple_app. simpl. lia. }
  simpl types.Len. rewrite (bind_step _ _ _ _ _ E3). cbv beta.
  assert (Hk3 := Hk2). rewrite <- Hp3 in Hk3.
  (* the body *)
  unfold MakeBody.
  match type of Hk3 with _ = Some (put_funcs (_ ++ [?f]) _) =>
    destruct (modFn_put p (fun a0 => with_blks (fn_blks a0 ++ replicate 1 []) a0) w3 F f q Hk3)
      as (w4 & E4 & Hk4)
  end.
  rewrite bind_assoc. rewrite (bind_step _ _ _ _ _ E4). cbv beta.
  rewrite bind_ret. cbv beta.
  match type of Hk4 with _ = Some (put_funcs (_ ++ [?f]) _) =>
    destruct (Call_put p v args w4 F f q [] 0 Hk4 eq_refl) as (call & w5 & E5 & Hcall & Hk5)
  end.
  rewrite (bind_step _ _ _ _ _ E5). cbv beta.
  rewrite Hcall. unfold SetTailCall.
  match type of Hk5 with _ = Some (put_funcs (_ ++ [?f]) _) =>
    match goal with |- context [modFn p (length F) ?g] =>
      destruct (modFn_put p g w5 F f q Hk5) as (w6 & E6 & Hk6)
    end
  end.
  rewrite (bind_step _ _ _ _ _ E6). cbv beta.
  simpl in Hk6. rewrite Hargs in Hk6.
  (* the return *)
  assert (Eret : exists w7,
    match types.Len rs with
    | 0 => CreateRetVoid {| Func := length F; Pkg := p; blk := 0 |}
    | S _ => CreateRet {| Func := length F; Pkg := p; blk := 0 |} (llvm.Inst (length F) 0 0)
    end w6 = Ok tt w7 /\
    pkgs w7 !! p = Some (put_funcs (F ++ [stub_of (length F) v ps rs va tsig]) q)).
  { destruct (types.Len rs) as [|n] eqn:En.
    - match type of Hk6 with _ = Some (put_funcs (_ ++ [?f]) _) =>
        destruct (emit_put p llvm.RetVoid w6 F f q _ 0 Hk6 eq_refl) as (w7 & E7 & Hk7)
      end.
      exists w7. unfold CreateRetVoid. rewrite (bind_step _ _ _ _ _ E7). split; [reflexivity|].
      rewrite Hk7. unfold stub_of. rewrite En. reflexivity.
    - match type of Hk6 with _ = Some (put_funcs (_ ++ [?f]) _) =>
        destruct (emit_put p (llvm.Ret (llvm.Inst (length F) 0 0)) w6 F f q _ 0 Hk6 eq_refl)
          as (w7 & E7 & Hk7)
      end.
      exists w7. unfold CreateRet. rewrite (bind_step _ _ _ _ _ E7). split; [reflexivity|].
      rewrite Hk7. unfold stub_of. rewrite En. reflexivity. }
  destruct Eret as (w7 & E7 & Hk7).
  rewrite (bind_step _ _ _ _ _ E7). cbv beta.
  (* the table of stubs *)
  match goal with |- context [modPkg p ?g] =>
    destruct (modPkg_ok p g w7 _ Hk7) as (w8 & E8 & _ & Hk8)
  end.
  rewrite (bind_step _ _ _ _ _ E8). cbv beta.
  assert (E9 : getFn p (length F) w8 = Ok (stub_of (length F) v ps rs va tsig) w8).
  { eapply getFn_ok; [exact Hk8 | apply lookup_snoc]. }
  rewrite (bind_step _ _ _ _ _ E9). cbv beta.
  unfold ret at 1. cbv iota beta.
  destruct (prog_only_rawType t w8) as (ty & w9 & E10 & Hp9).
  rewrite (bind_step _ _ _ _ _ E10). cbv beta.
  exists (aggregateValue ty [llvm.Func (ClosureStub +:+ name); llvm.Null (ll vp)]), w9, ty, vp, tsig.
  split; [reflexivity|]. split; [reflexivity|].
  rewrite Hp9. exact Hk8.
Qed.

(** C3, as stated, fails: the stub built for a closure of one parameter and
    one result calls the closure with its own parameter number 1 (the last
    one, which the modelled [FuncAddCtx] makes the context), not with its
    first parameter, number 0. *)
Lemma closureStub_forwards_from_parameter_1 :
  exists e w1,
    closureStub 0 sample_builder (closureT sig_one_result) closure1 with_caller = Ok e w1 /\
    blocks_of w1 0 1 =
      Some [[llvm.Call (llvm.Func "main.f$1") [llvm.Param 1 1] true;
             llvm.Ret (llvm.Inst 1 0 0)]] /\
    [llvm.Param 1 1] <> map (llvm.Param 1) (seq 0 1).
Proof.
  eexists _, _. split; [vm_compute; reflexivity|]. split; [vm_compute; reflexivity|].
  simpl. intros H. discriminate H.
Qed.

(** C3, amended.  For a closure of [N] parameters whose stub does not exist
    yet, [closureStub] declares a function named after the closure behind the
    fixed prefix, with [N+1] parameters and link-once linkage, and enters it
    in the table of stubs.  Its body is one block: a tail call of the closure
    on the stub's parameters number 1 to [N] (parameter 0 is not forwarded),
    followed by a return of the call's value when the closure has one result
    and by a void return when it has none. *)
Theorem closureStub_shape (p : Package) (b : Builder) (t : types.Type_) (v : Expr)
  (w : World) (pk : aPackage) (ps rs : types.Tuple) (va : bool) :
  pkgs w !! p = Some pk ->
  stubs pk !! llvm.Name (impl v) = None ->
  fns pk !! (ClosureStub +:+ llvm.Name (impl v)) = None ->
  raw (Type_ v) = types.Signature ps rs va ->
  types.Len rs <= 1 ->
  exists e w1 pk1 stub,
    closureStub p b t v w = Ok e w1 /\
    pkgs w1 !! p = Some pk1 /\
    stubs pk1 !! llvm.Name (impl v) = Some (length (mod_funcs (mod_ pk))) /\
    mod_funcs (mod_ pk1) !! length (mod_funcs (mod_ pk)) = Some stub /\
    fn_name stub = ClosureStub +:+ llvm.Name (impl v) /\
    types.Len (fn_params stub) = S (types.Len ps) /\
    fn_linkage stub = llvm.LinkOnceAnyLinkage /\
    fn_blks stub =
      [[llvm.Call (impl v)
          (map (fun i => llvm.Param (length (mod_funcs (mod_ pk))) (i + 1))
             (seq 0 (types.Len ps))) true;
        if decide (types.Len rs = 1)
        then llvm.Ret (llvm.Inst (length (mod_funcs (mod_ pk))) 0 0)
        else llvm.RetVoid]].
Proof.
  intros Hk Hs Hf Hsig Hrs.
  destruct (closureStub_fresh p b t v w pk ps rs va Hk Hs Hf Hsig)
    as (e & w1 & ty & vp & tsig & E & _ & Hk1).
  eexists e, w1, _, (stub_of (length (mod_funcs (mod_ pk))) v ps rs va tsig).
  split; [exact E|]. split; [exact Hk1|]. split; [|split; [|split; [|split; [|split]]]].
  - simpl. apply lookup_insert_eq.
  - simpl. apply lookup_snoc.
  - reflexivity.
  - simpl. rewrite Len_tuple_app. simpl. lia.
  - reflexivity.
  - simpl. destruct (types.Len rs) as [|[|n]]; [reflexivity | reflexivity | lia].
Qed.

Lemma closureStub_shape_witness :
  exists e w1 pk1 stub,
    closureStub 0 sample_builder (closureT sig_one_result) closure1 with_caller = Ok e w1 /\
    pkgs w1 !! 0 = Some pk1 /\
    stubs pk1 !! "main.f$1" = Some 1 /\
    mod_funcs (mod_ pk1) !! 1 = Some stub /\
    fn_name stub = "__llgo_stub.main.f$1" /\
    types.Len (fn_params stub) = 2 /\
    fn_linkage stub = llvm.LinkOnceAnyLinkage /\
    fn_blks stub =
      [[llvm.Call (llvm.Func "main.f$1") [llvm.Param 1 1] true; llvm.Ret (llvm.Inst 1 0 0)]].
Proof.
  pose proof (closureStub_shape 0 sample_builder (closureT sig_one_result) closure1 with_caller)
    as H.
  specialize (fun pk Hk => H pk (types.TCons "x" intT types.TNil)
                             (types.TCons "" intT types.TNil) false Hk).
  edestruct H as (e & w1 & pk1 & stub & H1); [vm_compute; reflexivity | ..].
  - vm_compute. reflexivity.
  - vm_compute. reflexivity.
  - reflexivity.
  - simpl. lia.
  - exists e, w1, pk1, stub. exact H1.
Defined.

(** C4, as stated, fails: for a closure with two results [closureStub] raises
    no error; it returns, and the stub it built returns the call's value. *)
Lemma closureStub_accepts_two_results :
  exists e w1,
    closureStub 0 sample_builder (closureT sig_two_results) closure2 with_caller = Ok e w1 /\
    blocks_of w1 0 1 =
      Some [[llvm.Call (llvm.Func "main.g$1") [llvm.Param 1 1] true;
             llvm.Ret (llvm.Inst 1 0 0)]].
Proof.
  eexists _, _. split; vm_compute; reflexivity.
Qed.

(** C4, amended.  For a closure whose signature has more than one result and
    whose stub does not exist yet, [closureStub] returns without an error: it
    builds the stub as for one result, the body returning the value of the
    tail call. *)
Theorem closureStub_many_results (p : Package) (b : Builder) (t : types.Type_) (v : Expr)
  (w : World) (pk : aPackage) (ps rs : types.Tuple) (va : bool) :
  pkgs w !! p = Some pk ->
  stubs pk !! llvm.Name (impl v) = None ->
  fns pk !! (ClosureStub +:+ llvm.Name (impl v)) = None ->
  raw (Type_ v) = types.Signature ps rs va ->
  1 < types.Len rs ->
  exists e w1,
    closureStub p b t v w = Ok e w1 /\
    blocks_of w1 p (length (mod_funcs (mod_ pk))) =
      Some [[llvm.Call (impl v)
               (map (fun i => llvm.Param (length (mod_funcs (mod_ pk))) (i + 1))
                  (seq 0 (types.Len ps))) true;
             llvm.Ret (llvm.Inst (length (mod_funcs (mod_ pk))) 0 0)]].
Proof.
  intros Hk Hs Hf Hsig Hrs.
  destruct (closureStub_fresh p b t v w pk ps rs va Hk Hs Hf Hsig)
    as (e & w1 & ty & vp & tsig & E & _ & Hk1).
  exists e, w1. split; [exact E|].
  unfold blocks_of. rewrite Hk1. simpl. rewrite lookup_snoc. simpl.
  destruct (types.Len rs) as [|n]; [lia | reflexivity].
Qed.

Lemma closureStub_many_results_witness :
  exists e w1,
    closureStub 0 sample_builder (closureT sig_two_results) closure2 with_caller = Ok e w1 /\
    blocks_of w1 0 1 =
      Some [[llvm.Call (llvm.Func "main.g$1") [llvm.Param 1 1] true;
             llvm.Ret (llvm.Inst 1 0 0)]].
Proof.
  pose proof (closureStub_many_results 0 sample_builder (closureT sig_two_results) closure2
                with_caller) as H.
  specialize (fun pk Hk => H pk (types.TCons "x" intT types.TNil)
                             (types.TCons "" intT (types.TCons "" intT types.TNil)) false Hk).
  edestruct H as (e & w1 & H1); [vm_compute; reflexivity | ..].
  - vm_compute. reflexivity.
  - vm_compute. reflexivity.
  - reflexivity.
  - simpl. lia.
  - exists e, w1. exact H1.
Defined.

(** ** The Python bridge *)

Lemma pyFunc_fresh p name sig w pk :
  pkgs w !! p = Some pk -> fns pk !! name = None ->
  exists t w', pyFunc p name sig w = Ok (fn_Expr (declared name sig InC t)) w' /\
    pkgs w' !! p =
      Some (put_funcs (mod_funcs (mod_ pk) ++ [declared name sig InC t])
              (with_fns (<[name := length (mod_funcs (mod_ pk))]> (fns pk)) pk)).
Proof.
  intros Hk Hf. unfold pyFunc.
  bstep (getPkg_ok p w pk Hk).
  set (w0 := with_prog (with_needPyInit true) w).
  rewrite (bind_step _ _ _ _ _ (eq_refl : modProg (with_needPyInit true) w = Ok tt w0)).
  cbv beta.
  destruct (NewFunc_miss p name sig InC w0 pk Hk Hf) as (t & w1 & E1 & Hk1).
  bstep E1.
  change (pkgs w1 !! p =
            Some (put_funcs (mod_funcs (mod_ pk) ++ [declared name sig InC t])
                    (with_fns (<[name := length (mod_funcs (mod_ pk))]> (fns pk)) pk))) in Hk1.
  bstep (getFn_put p w1 _ _ _ Hk1).
  exists t, w1. split; [reflexivity | exact Hk1].
Qed.

Lemma pkgs_same_thunk_sig n : preserves pkgs_same (thunk_sig n).
Proof. destruct n; unfold thunk_sig; pres leaf_pkgs. Qed.

(** C6, as stated, fails: a callee of two parameters is not supported; the
    call panics and nothing is declared or emitted. *)
Lemma pyCall_two_arguments_panics :
  pyCall sample_builder callable2 [callable0; callable0] with_caller
    = Panic "todo" with_caller.
Proof. reflexivity. Qed.

(** C6, amended.  [pyCall] dispatches on the number [n] of parameters of the
    callee's signature.  For [n] of 2 or more it panics at once and leaves the
    store as it was.  For [n] of 0 and of 1, given that the thunk's signature
    resolves, that the builder points into a block of its package and, for
    [n] of 1, that there is a first argument, the first use declares the thunk
    ([PyObject_CallNoArg], [PyObject_CallOneArg]) in the package's function
    table with that signature and appends to the builder's block one call of
    the thunk on the callee and, for [n] of 1, the first argument. *)
Theorem pyCall_dispatch (b : Builder) (fn : Expr) (args : list Expr) (w : World)
  (ps rs : types.Tuple) (va : bool) :
  raw (Type_ fn) = types.Signature ps rs va ->
  (2 <= types.Len ps -> pyCall b fn args w = Panic "todo" w) /\
  (forall s w1 pk f insts cargs,
     types.Len ps <= 1 ->
     thunk_sig (types.Len ps) w = Ok s w1 ->
     pkgs w !! Pkg b = Some pk ->
     fns pk !! thunk_name (types.Len ps) = None ->
     mod_funcs (mod_ pk) !! Func b = Some f ->
     fn_blks f !! blk b = Some insts ->
     thunk_args (types.Len ps) fn args = Some cargs ->
     exists e w' pk' th,
       pyCall b fn args w = Ok e w' /\
       impl e = llvm.Inst (Func b) (blk b) (length insts) /\
       pkgs w' !! Pkg b = Some pk' /\
       fns pk' !! thunk_name (types.Len ps) = Some (length (mod_funcs (mod_ pk))) /\
       mod_funcs (mod_ pk') !! length (mod_funcs (mod_ pk)) = Some th /\
       fn_name th = thunk_name (types.Len ps) /\
       fn_params th = types.Params s /\
       blocks_of w' (Pkg b) (Func b) =
         Some (<[blk b := insts ++
                  [llvm.Call (llvm.Func (thunk_name (types.Len ps))) (map impl cargs) false]]>
                 (fn_blks f))).
Proof.
  intros Hsig. split.
  - intros Hn. unfold pyCall. rewrite Hsig. unfold asSignature. cbv iota.
    rewrite bind_ret. cbv beta zeta.
    change (types.Params (types.Signature ps rs va)) with ps.
    destruct (types.Len ps) as [|[|n]]; [lia | lia | reflexivity].
  - intros s w1 pk f insts cargs Hn Hs Hk Hf Hfn Hb Hargs.
    assert (Hp1 : pkgs w1 = pkgs w).
    { pose proof (pkgs_same_thunk_sig (types.Len ps) w) as H. rewrite Hs in H. exact H. }
    assert (Hk1 : pkgs w1 !! Pkg b = Some pk) by (rewrite Hp1; exact Hk).
    destruct (pyFunc_fresh (Pkg b) (thunk_name (types.Len ps)) s w1 pk Hk1 Hf)
      as (t & w2 & E2 & Hk2).
    assert (Hfn2 : mod_funcs (mod_ (put_funcs
               (mod_funcs (mod_ pk) ++ [declared (thunk_name (types.Len ps)) s InC t])
               (with_fns (<[thunk_name (types.Len ps) := length (mod_funcs (mod_ pk))]> (fns pk)) pk)))
             !! Func b = Some f).
    { simpl. apply lookup_app_l_Some. exact Hfn. }
    destruct (Call_ok b (fn_Expr (declared (thunk_name (types.Len ps)) s InC t)) cargs
                w2 _ f insts Hk2 Hfn2 Hb) as (e & w3 & E3 & He & Hk3).
    assert (E : pyCall b fn args w = Ok e w3).
    { unfold pyCall. rewrite Hsig. unfold asSignature. cbv iota.
      rewrite bind_ret. cbv beta zeta.
    change (types.Params (types.Signature ps rs va)) with ps.
      destruct (types.Len ps) as [|[|n]]; [| |lia]; simpl in *.
      - bstep Hs. bstep E2. inversion Hargs; subst. exact E3.
      - bstep Hs. bstep E2. destruct (args !! 0) as [a0|]; [|discriminate].
        inversion Hargs; subst. rewrite bind_orPanic_Some. exact E3. }
    eexists e, w3, _, (declared (thunk_name (types.Len ps)) s InC t).
    split; [exact E|]. split; [exact He|]. split; [exact Hk3|].
    split; [|split; [|split; [|split]]].
    + simpl. apply lookup_insert_eq.
    + simpl. rewrite list_lookup_insert_ne.
      * apply lookup_snoc.
      * apply lookup_lt_Some in Hfn. lia.
    + reflexivity.
    + reflexivity.
    + unfold blocks_of. rewrite Hk3. simpl.
      rewrite list_lookup_insert_eq; [reflexivity|].
      rewrite length_app. apply lookup_lt_Some in Hfn. lia.
Qed.

Lemma pyCall_dispatch_witness :
  exists e w',
    pyCall sample_builder callable0 [] with_caller = Ok e w' /\
    impl e = llvm.Inst 0 0 0 /\
    blocks_of w' 0 0 =
      Some [[llvm.Call (llvm.Func "PyObject_CallNoArg") [llvm.Global "py.f0"] false]].
Proof.
  edestruct (proj2 (pyCall_dispatch sample_builder callable0 [] with_caller
                      types.TNil types.TNil false eq_refl))
    as (e & w' & pk' & th & E & He & _ & _ & _ & _ & _ & Hb).
  - simpl. lia.
  - vm_compute. reflexivity.
  - vm_compute. reflexivity.
  - vm_compute. reflexivity.
  - vm_compute. reflexivity.
  - vm_compute. reflexivity.
  - reflexivity.
  - exists e, w'. split; [exact E|]. split; [exact He|]. exact Hb.
Defined.

(** ** The symbol tables *)

Lemma pkg_kept_refl ex p : pkg_kept ex p p.
Proof. repeat split; eauto. Qed.

Lemma pkg_kept_trans ex a b c : pkg_kept ex a b -> pkg_kept ex b c -> pkg_kept ex a c.
Proof.
  intros (A1 & A2 & A3 & A4 & A5) (B1 & B2 & B3 & B4 & B5). repeat split; eauto.
  - intros i f H. destruct (A4 i f H) as (f' & H1 & E1).
    destruct (B4 i f' H1) as (f'' & H2 & E2). exists f''. split; [exact H2 | congruence].
  - intros i g H. destruct (A5 i g H) as (g' & H1 & E1).
    destruct (B5 i g' H1) as (g'' & H2 & E2). exists g''. split; [exact H2 | congruence].
Qed.

#[export] Instance tables_kept_but_preorder ex : PreOrder (tables_kept_but ex).
Proof.
  split.
  - intros w k p H. exists p. split; [exact H | apply pkg_kept_refl].
  - intros a b c H1 H2 k p H. destruct (H1 k p H) as (p' & Hp' & K1).
    destruct (H2 k p' Hp') as (p'' & Hp'' & K2). exists p''. split; [exact Hp''|].
    eapply pkg_kept_trans; eassumption.
Qed.

#[export] Instance tables_kept_preorder : PreOrder tables_kept.
Proof. apply tables_kept_but_preorder. Qed.

#[export] Instance wf_kept_preorder : PreOrder wf_kept.
Proof. split; unfold wf_kept; [intros w H; exact H | intros a b c H1 H2 H; auto]. Qed.

(** Whatever leaves the packages alone keeps both. *)
Lemma tables_from_pkgs_same {A} ex (m : M A) :
  preserves pkgs_same m -> preserves (tables_kept_but ex) m.
Proof.
  intros Hm w k p H. specialize (Hm w). unfold pkgs_same in Hm. rewrite Hm.
  exists p. split; [exact H | apply pkg_kept_refl].
Qed.

Lemma wf_from_pkgs_same {A} (m : M A) : preserves pkgs_same m -> preserves wf_kept m.
Proof.
  intros Hm w Hw k p H. specialize (Hm w). unfold pkgs_same in Hm. rewrite Hm in H.
  exact (Hw k p H).
Qed.

(** One package replaced. *)
Lemma tables_insert ex w w' k p p' :
  pkgs w !! k = Some p -> pkgs w' = <[k := p']> (pkgs w) -> pkg_kept (ex k) p p' ->
  tables_kept_but ex w w'.
Proof.
  intros Hk Hw K j q Hj. rewrite Hw. destruct (decide (j = k)) as [->|Hne].
  - exists p'. split.
    + apply list_lookup_insert_eq. eapply lookup_lt_Some, Hk.
    + rewrite Hk in Hj. inversion Hj; subst. exact K.
  - exists q. split; [|apply pkg_kept_refl].
    rewrite list_lookup_insert_ne by congruence. exact Hj.
Qed.

Lemma wf_insert w w' k p' :
  pkgs w' = <[k := p']> (pkgs w) -> pkg_wf p' -> wf_kept w w'.
Proof.
  intros Hw Hp' H j q Hj. rewrite Hw in Hj.
  destruct (decide (j = k)) as [->|Hne].
  - destruct (decide (k < length (pkgs w))) as [Hlt|Hge].
    + rewrite list_lookup_insert_eq in Hj by exact Hlt. inversion Hj; subst. exact Hp'.
    + rewrite list_insert_ge in Hj by lia. exact (H k q Hj).
  - rewrite list_lookup_insert_ne in Hj by congruence. exact (H j q Hj).
Qed.

Lemma modPkg_full k f w :
  (pkgs w !! k = None /\ world_of (modPkg k f w) = w) \/
  (exists p, pkgs w !! k = Some p /\
     pkgs (world_of (modPkg k f w)) = <[k := f p]> (pkgs w)).
Proof.
  unfold modPkg, bind, getPkg. destruct (pkgs w !! k) as [p|] eqn:E; simpl.
  - right. exists p. split; reflexivity.
  - left. split; reflexivity.
Qed.

Lemma tables_modPkg ex k f :
  (forall p, pkg_kept (ex k) p (f p)) -> preserves (tables_kept_but ex) (modPkg k f).
Proof.
  intros Hf w. destruct (modPkg_full k f w) as [[_ ->]|(p & Hk & Hw)]; [reflexivity|].
  eapply tables_insert; [exact Hk | exact Hw | apply Hf].
Qed.

Lemma wf_modPkg k f :
  (forall p, pkg_wf p -> pkg_wf (f p)) -> preserves wf_kept (modPkg k f).
Proof.
  intros Hf w. destruct (modPkg_full k f w) as [[_ ->]|(p & Hk & Hw)]; [reflexivity|].
  intros H. eapply wf_insert; [exact Hw | apply Hf, (H k p Hk) | exact H].
Qed.

Lemma modFn_full k fn g w :
  world_of (modFn k fn g w) = w \/
  (exists p a, pkgs w !! k = Some p /\ mod_funcs (mod_ p) !! fn = Some a /\
     pkgs (world_of (modFn k fn g w)) =
       <[k := with_funcs (fun l => <[fn := g a]> l) p]> (pkgs w)).
Proof.
  unfold modFn, getFn, modPkg, bind, getPkg.
  destruct (pkgs w !! k) as [p|] eqn:E; simpl; [|left; reflexivity].
  destruct (mod_funcs (mod_ p) !! fn) as [a|] eqn:Ea; simpl; [|left; reflexivity].
  rewrite E. simpl. right. exists p, a. repeat split; assumption.
Qed.

Lemma modGlobal_full k gi h w :
  world_of (modGlobal k gi h w) = w \/
  (exists p a, pkgs w !! k = Some p /\ mod_globals (mod_ p) !! gi = Some a /\
     pkgs (world_of (modGlobal k gi h w)) =
       <[k := with_globals (fun l => <[gi := h a]> l) p]> (pkgs w)).
Proof.
  unfold modGlobal, getGlobal, modPkg, bind, getPkg.
  destruct (pkgs w !! k) as [p|] eqn:E; simpl; [|left; reflexivity].
  destruct (mod_globals (mod_ p) !! gi) as [a|] eqn:Ea; simpl; [|left; reflexivity].
  rewrite E. simpl. right. exists p, a. repeat split; assumption.
Qed.

Lemma pkg_kept_set_func ex p fn a a' :
  mod_funcs (mod_ p) !! fn = Some a -> fn_Expr a' = fn_Expr a ->
  pkg_kept ex p (with_funcs (fun l => <[fn := a']> l) p).
Proof.
  intros Ha He. repeat split; simpl; eauto.
  intros i f H. destruct (decide (i = fn)) as [->|Hne].
  - exists a'. split; [apply list_lookup_insert_eq; eapply lookup_lt_Some, H|].
    rewrite Ha in H. inversion H; subst. exact He.
  - exists f. split; [|reflexivity]. rewrite list_lookup_insert_ne by congruence. exact H.
Qed.

Lemma pkg_wf_set_func p fn a a' :
  mod_funcs (mod_ p) !! fn = Some a -> fn_Expr a' = fn_Expr a ->
  pkg_wf p -> pkg_wf (with_funcs (fun l => <[fn := a']> l) p).
Proof.
  intros Ha He [W1 W2]. split; simpl; [|exact W2].
  intros i f H. destruct (decide (i = fn)) as [->|Hne].
  - rewrite list_lookup_insert_eq in H by (eapply lookup_lt_Some, Ha).
    inversion H; subst. unfold fn_name. rewrite He. apply (W1 fn a Ha).
  - rewrite list_lookup_insert_ne in H by congruence. apply W1, H.
Qed.

Lemma pkg_kept_set_global ex p gi a a' :
  mod_globals (mod_ p) !! gi = Some a -> gbl_Expr a' = gbl_Expr a ->
  pkg_kept ex p (with_globals (fun l => <[gi := a']> l) p).
Proof.
  intros Ha He. repeat split; simpl; eauto.
  intros i g H. destruct (decide (i = gi)) as [->|Hne].
  - exists a'. split; [apply list_lookup_insert_eq; eapply lookup_lt_Some, H|].
    rewrite Ha in H. inversion H; subst. exact He.
  - exists g. split; [|reflexivity]. rewrite list_lookup_insert_ne by congruence. exact H.
Qed.

Lemma pkg_wf_set_global p gi a a' :
  mod_globals (mod_ p) !! gi = Some a -> gbl_Expr a' = gbl_Expr a ->
  pkg_wf p -> pkg_wf (with_globals (fun l => <[gi := a']> l) p).
Proof.
  intros Ha He [W1 W2]. split; simpl; [exact W1|].
  intros i g H. destruct (decide (i = gi)) as [->|Hne].
  - rewrite list_lookup_insert_eq in H by (eapply lookup_lt_Some, Ha).
    inversion H; subst. unfold gbl_name. rewrite He. apply (W2 gi a Ha).
  - rewrite list_lookup_insert_ne in H by congruence. apply W2, H.
Qed.

Lemma tables_modFn ex k fn g :
  (forall a, fn_Expr (g a) = fn_Expr a) -> preserves (tables_kept_but ex) (modFn k fn g).
Proof.
  intros Hg w. destruct (modFn_full k fn g w) as [->|(p & a & Hk & Ha & Hw)]; [reflexivity|].
  eapply tables_insert; [exact Hk | exact Hw |]. apply (pkg_kept_set_func _ _ _ a); auto.
Qed.

Lemma wf_modFn k fn g :
  (forall a, fn_Expr (g a) = fn_Expr a) -> preserves wf_kept (modFn k fn g).
Proof.
  intros Hg w. destruct (modFn_full k fn g w) as [->|(p & a & Hk & Ha & Hw)]; [reflexivity|].
  intros H. eapply wf_insert; [exact Hw | | exact H].
  apply (pkg_wf_set_func _ _ a); auto. exact (H k p Hk).
Qed.

Lemma tables_modGlobal ex k gi h :
  (forall a, gbl_Expr (h a) = gbl_Expr a) -> preserves (tables_kept_but ex) (modGlobal k gi h).
Proof.
  intros Hg w. destruct (modGlobal_full k gi h w) as [->|(p & a & Hk & Ha & Hw)]; [reflexivity|].
  eapply tables_insert; [exact Hk | exact Hw |]. apply (pkg_kept_set_global _ _ _ a); auto.
Qed.

Lemma wf_modGlobal k gi h :
  (forall a, gbl_Expr (h a) = gbl_Expr a) -> preserves wf_kept (modGlobal k gi h).
Proof.
  intros Hg w. destruct (modGlobal_full k gi h w) as [->|(p & a & Hk & Ha & Hw)]; [reflexivity|].
  intros H. eapply wf_insert; [exact Hw | | exact H].
  apply (pkg_wf_set_global _ _ a); auto. exact (H k p Hk).
Qed.

Lemma tables_allocPkg ex p : preserves (tables_kept_but ex) (allocPkg p).
Proof.
  intros w k q H. exists q. split; [|apply pkg_kept_refl].
  simpl. apply lookup_app_l_Some. exact H.
Qed.

Lemma wf_allocPkg p : pkg_wf p -> preserves wf_kept (allocPkg p).
Proof.
  intros Hp w H k q Hk. simpl in Hk. apply lookup_app_Some in Hk as [Hk|[_ Hk]].
  - exact (H k q Hk).
  - apply list_lookup_singleton_Some in Hk as [_ <-]. exact Hp.
Qed.

Lemma NewFunc_full k name sig bg w :
  world_of (NewFunc k name sig bg w) = w \/
  (exists p t, pkgs w !! k = Some p /\ fns p !! name = None /\
     pkgs (world_of (NewFunc k name sig bg w)) =
       <[k := with_fns (<[name := length (mod_funcs (mod_ p))]> (fns p))
                (with_funcs (fun l => l ++ [declared name sig bg t]) p)]> (pkgs w)).
Proof.
  destruct (pkgs w !! k) as [p|] eqn:Hk.
  - destruct (fns p !! name) as [fn|] eqn:Hf.
    + left. rewrite (NewFunc_hit k name sig bg w p fn Hk Hf). reflexivity.
    + right. unfold NewFunc. bstep (getPkg_ok k w p Hk).
      unfold Function in *. rewrite Hf.
      destruct (prog_only_rawType sig w) as (t & w1 & E & Hp). bstep E.
      exists p, t. split; [reflexivity|]. split; [exact Hf|].
      unfold modPkg, bind, getPkg. rewrite Hp, Hk. simpl. rewrite Hp. reflexivity.
  - left. unfold NewFunc, bind, getPkg. rewrite Hk. reflexivity.
Qed.

Lemma NewVar_hit k name typ bg w p g :
  pkgs w !! k = Some p -> vars p !! name = Some g -> NewVar k name typ bg w = Ok g w.
Proof.
  intros H Hf. unfold NewVar. bstep (getPkg_ok k w p H).
  unfold Global in *. rewrite Hf. reflexivity.
Qed.

Lemma NewVar_full k name typ bg w :
  world_of (NewVar k name typ bg w) = w \/
  (exists p t, pkgs w !! k = Some p /\ vars p !! name = None /\
     NewVar k name typ bg w =
       Ok (length (mod_globals (mod_ p))) (world_of (NewVar k name typ bg w)) /\
     pkgs (world_of (NewVar k name typ bg w)) =
       <[k := with_vars (<[name := length (mod_globals (mod_ p))]> (vars p))
                (with_globals (fun l => l ++ [declared_var name t]) p)]> (pkgs w)).
Proof.
  destruct (pkgs w !! k) as [p|] eqn:Hk.
  - destruct (vars p !! name) as [g|] eqn:Hf.
    + left. rewrite (NewVar_hit k name typ bg w p g Hk Hf). reflexivity.
    + right. unfold NewVar. bstep (getPkg_ok k w p Hk).
      unfold Global in *. rewrite Hf.
      destruct (prog_only_rawType typ w) as (t & w1 & E & Hp). bstep E.
      exists p, t. split; [reflexivity|]. split; [exact Hf|].
      unfold modPkg, bind, getPkg. rewrite Hp, Hk. simpl. rewrite Hp.
      split; reflexivity.
  - left. unfold NewVar, bind, getPkg. rewrite Hk. reflexivity.
Qed.

Lemma pkg_kept_declare ex p name f :
  fns p !! name = None ->
  pkg_kept ex p (with_fns (<[name := length (mod_funcs (mod_ p))]> (fns p))
                   (with_funcs (fun l => l ++ [f]) p)).
Proof.
  intros Hf. unfold Function, Global in *. repeat split; simpl; eauto.
  - intros n i H. rewrite lookup_insert_ne; [exact H|].
    intros E. rewrite E in Hf. pose proof (eq_trans (eq_sym Hf) H) as X. discriminate X.
  - intros i g H. exists g. split; [apply lookup_app_l_Some, H | reflexivity].
Qed.

Lemma pkg_wf_declare p name f :
  fns p !! name = None -> fn_name f = name -> pkg_wf p ->
  pkg_wf (with_fns (<[name := length (mod_funcs (mod_ p))]> (fns p))
            (with_funcs (fun l => l ++ [f]) p)).
Proof.
  intros Hf Hn [W1 W2]. unfold Function, Global in *. split; simpl; [|exact W2].
  intros i g H. apply lookup_app_Some in H as [H|[Hi H]].
  - rewrite lookup_insert_ne; [apply W1, H|].
    intros E. apply W1 in H. rewrite <- E in H.
    pose proof (eq_trans (eq_sym Hf) H) as X. discriminate X.
  - apply list_lookup_singleton_Some in H as [Hi0 <-]. rewrite Hn.
    replace i with (length (mod_funcs (mod_ p))) by lia. apply lookup_insert_eq.
Qed.

Lemma pkg_kept_declare_var ex p name g :
  vars p !! name = None ->
  pkg_kept ex p (with_vars (<[name := length (mod_globals (mod_ p))]> (vars p))
                   (with_globals (fun l => l ++ [g]) p)).
Proof.
  intros Hf. unfold Function, Global in *. repeat split; simpl; eauto.
  - intros n i H. rewrite lookup_insert_ne; [exact H|].
    intros E. rewrite E in Hf. pose proof (eq_trans (eq_sym Hf) H) as X. discriminate X.
  - intros i a H. exists a. split; [apply lookup_app_l_Some, H | reflexivity].
Qed.

Lemma pkg_wf_declare_var p name g :
  vars p !! name = None -> gbl_name g = name -> pkg_wf p ->
  pkg_wf (with_vars (<[name := length (mod_globals (mod_ p))]> (vars p))
            (with_globals (fun l => l ++ [g]) p)).
Proof.
  intros Hf Hn [W1 W2]. unfold Function, Global in *. split; simpl; [exact W1|].
  intros i a H. apply lookup_app_Some in H as [H|[Hi H]].
  - rewrite lookup_insert_ne; [apply W2, H|].
    intros E. apply W2 in H. rewrite <- E in H.
    pose proof (eq_trans (eq_sym Hf) H) as X. discriminate X.
  - apply list_lookup_singleton_Some in H as [Hi0 <-]. rewrite Hn.
    replace i with (length (mod_globals (mod_ p))) by lia. apply lookup_insert_eq.
Qed.

Lemma tables_NewFunc ex k name sig bg : preserves (tables_kept_but ex) (NewFunc k name sig bg).
Proof.
  intros w. destruct (NewFunc_full k name sig bg w) as [->|(p & t & Hk & Hf & Hw)];
    [reflexivity|].
  eapply tables_insert; [exact Hk | exact Hw | apply pkg_kept_declare, Hf].
Qed.

Lemma wf_NewFunc k name sig bg : preserves wf_kept (NewFunc k name sig bg).
Proof.
  intros w. destruct (NewFunc_full k name sig bg w) as [->|(p & t & Hk & Hf & Hw)];
    [reflexivity|].
  intros H. eapply wf_insert; [exact Hw | | exact H].
  apply pkg_wf_declare; [exact Hf | reflexivity | exact (H k p Hk)].
Qed.

Lemma tables_NewVar ex k name typ bg : preserves (tables_kept_but ex) (NewVar k name typ bg).
Proof.
  intros w. destruct (NewVar_full k name typ bg w) as [->|(p & t & Hk & Hf & _ & Hw)];
    [reflexivity|].
  eapply tables_insert; [exact Hk | exact Hw | apply pkg_kept_declare_var, Hf].
Qed.

Lemma wf_NewVar k name typ bg : preserves wf_kept (NewVar k name typ bg).
Proof.
  intros w. destruct (NewVar_full k name typ bg w) as [->|(p & t & Hk & Hf & _ & Hw)];
    [reflexivity|].
  intros H. eapply wf_insert; [exact Hw | | exact H].
  apply pkg_wf_declare_var; [exact Hf | reflexivity | exact (H k p Hk)].
Qed.

Lemma tables_stub_insert (ex : Package -> string -> Prop) k n fn :
  ex k n ->
  preserves (tables_kept_but ex)
    (modPkg k (fun pk => with_stubs (<[n := fn]> (stubs pk)) pk)).
Proof.
  intros He. apply tables_modPkg. intros p. repeat split; simpl; eauto.
  intros n' i Hn H. rewrite lookup_insert_ne; [exact H|]. intros ->. contradiction.
Qed.

Lemma wf_stub_insert k n fn :
  preserves wf_kept (modPkg k (fun pk => with_stubs (<[n := fn]> (stubs pk)) pk)).
Proof. apply wf_modPkg. intros p [W1 W2]. split; assumption. Qed.

Create HintDb ssa_pkg_ops.
#[export] Hint Unfold perform lower request SetPython SetRuntime NeedRuntime pyNamed
  Lookup asNamed asSignature asFunc memoSig Pointer PyObjectPtr PyObjectPtrPtr Void
  VoidPtr Bool CStr String Any Int Uintptr Float64 NewPackage getFn
  getGlobal Param MakeBody emit retType Call SetTailCall SetLinkage
  CreateRetVoid CreateRet BuilderCStr rtFunc pyFunc tyImportPyModule
  tyCallNoArg tyCallOneArg ImportPyMod NewPyModVar pyCall : ssa_pkg_ops.

Ltac pres_pkg leaf := repeat autounfold with ssa_pkg_ops; cbv zeta; repeat (pres_step leaf).

Ltac leaf_tables_base :=
  first
  [ apply tables_modFn; intros; reflexivity
  | apply tables_modGlobal; intros; reflexivity
  | apply tables_NewFunc
  | apply tables_NewVar
  | apply tables_allocPkg
  | apply tables_stub_insert; split; reflexivity
  | apply tables_from_pkgs_same; solve [pres leaf_pkgs] ].

Lemma tables_closureStub p b t v : preserves tables_kept (closureStub p b t v).
Proof.
  intros w. unfold closureStub. cbv zeta. unfold Function in *. unfold bind at 1.
  pose proof (prog_only_VoidPtr w) as (vp & w0 & E0 & Hp0). rewrite E0.
  transitivity w0.
  { intros k q Hq. exists q. rewrite Hp0. split; [exact Hq | apply pkg_kept_refl]. }
  unfold bind at 1, getPkg at 1.
  destruct (pkgs w0 !! p) as [pk|] eqn:Hk; [|reflexivity].
  match goal with
  | |- context [match ?x with Some _ => _ | None => _ end] => destruct x as [fn|] eqn:Hs
  end.
  - match goal with |- tables_kept w0 (world_of (?m w0)) =>
      assert (H : preserves tables_kept m) by (pres_pkg leaf_tables_base); apply (H w0)
    end.
  - match goal with |- tables_kept w0 (world_of (?m w0)) =>
      assert (H : preserves
                (tables_kept_but (fun k n => k = p /\ n = llvm.Name (impl v))) m)
        by (pres_pkg leaf_tables_base)
    end.
    intros k q Hq. destruct (H w0 k q Hq) as (q' & Hq' & (K1 & K2 & K3 & K4 & K5)).
    exists q'. split; [exact Hq'|]. repeat split; auto.
    intros n i _ Hn. apply K3; [|exact Hn].
    intros [-> ->]. rewrite Hk in Hq. inversion Hq; subst.
    pose proof (eq_trans (eq_sym Hs) Hn) as X. discriminate X.
Qed.

Ltac leaf_tables := first [ apply tables_closureStub | leaf_tables_base ].

Lemma perform_tables_kept (o : Op) : preserves tables_kept (perform o).
Proof. by_cases_on_op o. all: unfold tables_kept; pres_pkg leaf_tables. Qed.

Lemma pkg_wf_empty id : 
  pkg_wf {| mod_ := {| mod_id := id; mod_funcs := []; mod_globals := [] |};
            vars := ∅; fns := ∅; stubs := ∅; pyfns := ∅ |}.
Proof. split; simpl; intros i x H; rewrite lookup_nil in H; discriminate. Qed.

Ltac leaf_wf :=
  first
  [ apply wf_modFn; intros; reflexivity
  | apply wf_modGlobal; intros; reflexivity
  | apply wf_NewFunc
  | apply wf_NewVar
  | apply wf_allocPkg, pkg_wf_empty
  | apply wf_stub_insert
  | apply wf_from_pkgs_same; solve [pres leaf_pkgs] ].

Lemma perform_wf_kept (o : Op) : preserves wf_kept (perform o).
Proof. by_cases_on_op o. all: unfold closureStub; pres_pkg leaf_wf. Qed.

Lemma getPkg_inv k w p w1 : getPkg k w = Ok p w1 -> w1 = w /\ pkgs w !! k = Some p.
Proof.
  unfold getPkg. destruct (pkgs w !! k); intros H; inversion H; subst. split; reflexivity.
Qed.

Lemma getFn_inv k fn w a w1 :
  getFn k fn w = Ok a w1 ->
  w1 = w /\ exists pk, pkgs w !! k = Some pk /\ mod_funcs (mod_ pk) !! fn = Some a.
Proof.
  unfold getFn. intros H. apply bind_Ok in H as (pk & w0 & H0 & H).
  apply getPkg_inv in H0 as [-> Hk].
  destruct (mod_funcs (mod_ pk) !! fn) eqn:E; inversion H; subst.
  split; [reflexivity|]. exists pk. split; assumption.
Qed.

Lemma NewFunc_enters k name sig bg w i w1 :
  NewFunc k name sig bg w = Ok i w1 ->
  exists pk, pkgs w1 !! k = Some pk /\ fns pk !! name = Some i.
Proof.
  intros H. destruct (pkgs w !! k) as [pk|] eqn:Hk.
  - destruct (fns pk !! name) as [fn|] eqn:Hf.
    + rewrite (NewFunc_hit k name sig bg w pk fn Hk Hf) in H. inversion H; subst.
      exists pk. split; assumption.
    + destruct (NewFunc_miss k name sig bg w pk Hk Hf) as (t & w' & E & Hk').
      rewrite E in H. inversion H; subst. eexists. split; [exact Hk'|].
      simpl. apply lookup_insert_eq.
  - unfold NewFunc, bind, getPkg in H. rewrite Hk in H. discriminate.
Qed.

Lemma NewVar_miss k name typ bg w p :
  pkgs w !! k = Some p -> vars p !! name = None ->
  exists t w', NewVar k name typ bg w = Ok (length (mod_globals (mod_ p))) w' /\
    pkgs w' !! k =
      Some (with_vars (<[name := length (mod_globals (mod_ p))]> (vars p))
              (with_globals (fun l => l ++ [declared_var name t]) p)).
Proof.
  intros H Hf. unfold NewVar. bstep (getPkg_ok k w p H).
  unfold Global in *. rewrite Hf. destruct (prog_only_rawType typ w) as (t & w1 & E & Hp).
  rewrite (bind_step _ _ _ _ _ E).
  assert (H1 : pkgs w1 !! k = Some p) by (rewrite Hp; exact H).
  match goal with |- context [modPkg k ?f] =>
    destruct (modPkg_ok k f w1 p H1) as (w2 & E2 & _ & Hk) end.
  exists t, w2. rewrite (bind_step _ _ _ _ _ E2). split; [reflexivity | exact Hk].
Qed.

Lemma NewVar_enters k name typ bg w i w1 :
  NewVar k name typ bg w = Ok i w1 ->
  exists pk, pkgs w1 !! k = Some pk /\ vars pk !! name = Some i.
Proof.
  intros H. destruct (pkgs w !! k) as [pk|] eqn:Hk.
  - destruct (vars pk !! name) as [g|] eqn:Hf.
    + rewrite (NewVar_hit k name typ bg w pk g Hk Hf) in H. inversion H; subst.
      exists pk. split; assumption.
    + destruct (NewVar_miss k name typ bg w pk Hk Hf) as (t & w' & E & Hk').
      rewrite E in H. inversion H; subst. eexists. split; [exact Hk'|].
      simpl. apply lookup_insert_eq.
  - unfold NewVar, bind, getPkg in H. rewrite Hk in H. discriminate.
Qed.

Lemma request_enters p r w e w1 : request p r w = Ok e w1 -> entered p r e w1.
Proof.
  destruct r as [name typ bg|name sig bg|name sig|b t v]; simpl; intros H.
  - apply bind_Ok in H as (g & w' & H & H1). injection H1 as He Hw. subst e w1.
    apply NewVar_enters in H as (pk & Hk & Hv). exists pk. split; [exact Hk|]. eauto.
  - apply bind_Ok in H as (f & w' & H & H1). injection H1 as He Hw. subst e w1.
    apply NewFunc_enters in H as (pk & Hk & Hv). exists pk. split; [exact Hk|]. eauto.
  - apply bind_Ok in H as (x & w' & H & H1). injection H1 as He Hw. subst e w1.
    unfold pyFunc in H.
    apply bind_Ok in H as (pk0 & w2 & _ & H).
    apply bind_Ok in H as ([] & w3 & _ & H).
    apply bind_Ok in H as (f & w4 & Hf & H).
    apply bind_Ok in H as (a & w5 & Ha & H). injection H as He Hw. subst x w'.
    apply NewFunc_enters in Hf as (pk & Hk & Hv).
    apply getFn_inv in Ha as (-> & pk' & Hk' & Ha).
    rewrite Hk in Hk'. injection Hk' as <-. exists pk. split; [exact Hk|]. eauto 6.
  - apply bind_Ok in H as (x & w' & H & H1). injection H1 as He Hw. subst e w1.
    unfold closureStub in H.
    cbv zeta in H.
    apply bind_Ok in H as (vp & w0 & Hvp & H).
    assert (Hc : forall wz, lift cache_kept w0 wz ->
                   tyfield (prog wz) voidPtr = Some vp).
    { intros wz [_ K]. apply K. eapply memoType_caches, Hvp. }
    apply bind_Ok in H as (pk & w0' & Hk & H). apply getPkg_inv in Hk as [-> Hk].
    apply bind_Ok in H as (v0 & w8 & Hin & H).
    apply bind_Ok in H as (ty & w9 & Hty & H). injection H as He Hw. subst x w'.
    assert (Hp9 : pkgs w9 = pkgs w8).
    { pose proof (pkgs_same_rawType t w8) as K. rewrite Hty in K. exact K. }
    assert (C89 : lift cache_kept w8 w9).
    { pose proof (rawType_cache_kept t w8) as K. rewrite Hty in K. exact K. }
    assert (C08 : lift cache_kept w0 w8).
    { match type of Hin with ?m w0 = _ =>
        assert (K : preserves (lift cache_kept) m) by (pres leaf_cache);
        specialize (K w0); rewrite Hin in K; exact K
      end. }
    assert (Hend : exists pk8 fn a, pkgs w8 !! p = Some pk8 /\
              stubs pk8 !! llvm.Name (impl v) = Some fn /\
              mod_funcs (mod_ pk8) !! fn = Some a /\ v0 = fn_Expr a).
    { revert Hin.
      match goal with
      | |- context [match ?x with Some _ => _ | None => _ end] => destruct x as [fn|] eqn:Hs
      end; intros Hin.
      - apply bind_Ok in Hin as (a & w1 & Ha & Hin). inversion Hin; subst.
        apply getFn_inv in Ha as (-> & pk' & Hk' & Ha).
        rewrite Hk in Hk'. inversion Hk'; subst. exists pk', fn, a. eauto.
      - repeat (apply bind_Ok in Hin; destruct Hin as (? & ? & ? & Hin)).
        inversion Hin; subst.
        repeat match goal with
        | H : getFn _ _ _ = Ok _ _ |- _ => apply getFn_inv in H as (-> & ? & ? & ?)
        | H : getPkg _ _ = Ok _ _ |- _ => apply getPkg_inv in H as [-> ?]
        end.
        match goal with
        | H : modPkg p _ ?wa = Ok _ _ |- _ =>
            unfold modPkg in H; apply bind_Ok in H as (pk7 & ? & Hg & H);
            apply getPkg_inv in Hg as [-> Hk7]; inversion H; subst; clear H
        end.
        match goal with
        | H : pkgs (with_pkgs _ _) !! p = Some ?q, Ha : mod_funcs (mod_ ?q) !! ?fn = Some ?a |- _ =>
            exists q, fn, a; split; [exact H|];
            simpl in H; rewrite list_lookup_insert_eq in H by (eapply lookup_lt_Some, Hk7);
            inversion H; subst; simpl; split; [apply lookup_insert_eq|];
            split; [assumption | reflexivity]
        end. }
    destruct Hend as (pk8 & fn & a & Hk8 & Hs8 & Ha8 & ->).
    exists pk8. split; [rewrite Hp9; exact Hk8|].
    exists fn, a, vp, ty. repeat split; try assumption.
    + apply Hc. etransitivity; eassumption.
    + eapply rawType_caches, Hty.
Qed.

Lemma entered_kept p r e w w' :
  tables_kept w w' -> lift cache_kept w w' -> entered p r e w -> entered p r e w'.
Proof.
  intros T [C1 C2] (pk & Hk & H).
  destruct (T p pk Hk) as (pk' & Hk' & (K1 & K2 & K3 & K4 & K5)).
  exists pk'. split; [exact Hk'|].
  destruct r as [name typ bg|name sig bg|name sig|b t v].
  - destruct H as (i & Hi & ->). exists i. split; [apply K1, Hi | reflexivity].
  - destruct H as (i & Hi & ->). exists i. split; [apply K2, Hi | reflexivity].
  - destruct H as (i & f & Hi & Hf & ->). destruct (K4 i f Hf) as (f' & Hf' & E).
    exists i, f'. split; [apply K2, Hi|]. split; [exact Hf' | rewrite E; reflexivity].
  - destruct H as (fn & a & vp & ty & Hs & Ha & Hvp & Hty & ->).
    destruct (K4 fn a Ha) as (a' & Ha' & E).
    exists fn, a', vp, ty. split; [apply K3; [tauto | exact Hs]|].
    split; [exact Ha'|]. split; [apply C2, Hvp|]. split; [apply C1, Hty|].
    rewrite E. reflexivity.
Qed.

Lemma request_found p r e w :
  entered p r e w -> exists w', request p r w = Ok e w' /\ pkgs w' = pkgs w.
Proof.
  intros (pk & Hk & H).
  destruct r as [name typ bg|name sig bg|name sig|b t v]; simpl.
  - destruct H as (i & Hi & ->). exists w.
    rewrite (bind_step _ _ _ _ _ (NewVar_hit p name typ bg w pk i Hk Hi)).
    split; reflexivity.
  - destruct H as (i & Hi & ->). exists w.
    rewrite (bind_step _ _ _ _ _ (NewFunc_hit p name sig bg w pk i Hk Hi)).
    split; reflexivity.
  - destruct H as (i & f & Hi & Hf & ->).
    exists (with_prog (with_needPyInit true) w). split; [|reflexivity].
    assert (E : pyFunc p name sig w = Ok (fn_Expr f) (with_prog (with_needPyInit true) w)).
    { unfold pyFunc. bstep (getPkg_ok p w pk Hk).
      rewrite (bind_step _ _ _ _ _
                 (eq_refl : modProg (with_needPyInit true) w
                            = Ok tt (with_prog (with_needPyInit true) w))). cbv beta.
      rewrite (bind_step _ _ _ _ _
                 (NewFunc_hit p name sig InC (with_prog (with_needPyInit true) w) pk i Hk Hi)).
      cbv beta.
      rewrite (bind_step _ _ _ _ _
                 (getFn_ok p i (with_prog (with_needPyInit true) w) pk f Hk Hf)).
      reflexivity. }
    rewrite (bind_step _ _ _ _ _ E). reflexivity.
  - destruct H as (fn & a & vp & ty & Hs & Ha & Hvp & Hty & ->).
    exists w. split; [|reflexivity].
    assert (E : closureStub p b t v w
                = Ok (aggregateValue ty [impl (fn_Expr a); impl (Null vp)]) w).
    { unfold closureStub. cbv zeta.
      rewrite (bind_step _ _ _ _ _ (memoType_hit voidPtr _ w vp Hvp : VoidPtr w = Ok vp w)).
      cbv beta. bstep (getPkg_ok p w pk Hk).
      unfold bind at 1.
      match goal with
      | |- context [match ?x with Some _ => _ | None => _ end] =>
          replace x with (Some fn) by (symmetry; exact Hs)
      end.
      rewrite (bind_step _ _ _ _ _ (getFn_ok p fn w pk a Hk Ha)). cbv beta.
      unfold ret at 1. cbv iota beta.
      rewrite (bind_step _ _ _ _ _ (rawType_hit t w ty Hty)). reflexivity. }
    rewrite (bind_step _ _ _ _ _ E). reflexivity.
Qed.

Lemma run_tables_kept (ops : list Op) (w : World) : tables_kept w (run ops w).
Proof.
  apply (run_preserves tables_kept (fun _ => true)).
  - intros o _. apply perform_tables_kept.
  - induction ops; simpl; auto.
Qed.

Lemma run_wf (ops : list Op) (w : World) : wf w -> wf (run ops w).
Proof.
  apply (run_preserves wf_kept (fun _ => true)).
  - intros o _. apply perform_wf_kept.
  - induction ops; simpl; auto.
Qed.

Lemma wf_NewProgram : wf NewProgram.
Proof. intros k p H. simpl in H. rewrite lookup_nil in H. discriminate. Qed.

Lemma pkg_wf_NoDup (p : aPackage) :
  pkg_wf p ->
  NoDup (map fn_name (mod_funcs (mod_ p))) /\ NoDup (map gbl_name (mod_globals (mod_ p))).
Proof.
  intros [W1 W2]. split; apply NoDup_alt; intros i j x Hi Hj.
  - rewrite list_lookup_fmap in Hi, Hj.
    destruct (mod_funcs (mod_ p) !! i) as [f|] eqn:Ei; [|discriminate].
    destruct (mod_funcs (mod_ p) !! j) as [g|] eqn:Ej; [|discriminate].
    simpl in *. apply W1 in Ei, Ej. injection Hi as Hi. injection Hj as Hj.
    rewrite <- Hj in Hi. rewrite Hi in Ei.
    pose proof (eq_trans (eq_sym Ei) Ej) as X. injection X as X. exact X.
  - rewrite list_lookup_fmap in Hi, Hj.
    destruct (mod_globals (mod_ p) !! i) as [f|] eqn:Ei; [|discriminate].
    destruct (mod_globals (mod_ p) !! j) as [g|] eqn:Ej; [|discriminate].
    simpl in *. apply W2 in Ei, Ej. injection Hi as Hi. injection Hj as Hj.
    rewrite <- Hj in Hi. rewrite Hi in Ei.
    pose proof (eq_trans (eq_sym Ei) Ej) as X. injection X as X. exact X.
Qed.

(** C2.  A request to one of a Package's tables (a global through [NewVar], a
    function through [NewFunc], a foreign thunk through [pyFunc], a closure
    stub through [closureStub]) that returned an entry returns that very
    entry when it is repeated, whatever operations ran in between, and the
    repeated request adds nothing to any package: no constructor runs.  In
    every store reached from a new Program, no module holds two functions, or
    two globals, of one name. *)
Theorem symbol_tables_idempotent (p : Package) (r : SymReq) (w : World) (ops : list Op) :
  (forall e w1, request p r w = Ok e w1 ->
     exists w2, request p r (run ops w1) = Ok e w2 /\ pkgs w2 = pkgs (run ops w1)) /\
  (forall k pk, pkgs (run ops NewProgram) !! k = Some pk ->
     NoDup (map fn_name (mod_funcs (mod_ pk))) /\
     NoDup (map gbl_name (mod_globals (mod_ pk)))).
Proof.
  split.
  - intros e w1 H. apply request_found.
    eapply entered_kept; [apply run_tables_kept | apply run_cache_kept |].
    eapply request_enters, H.
  - intros k pk H. apply pkg_wf_NoDup. exact (run_wf ops NewProgram wf_NewProgram k pk H).
Qed.

Lemma symbol_tables_idempotent_witness :
  exists e w1,
    request 0 (ReqStub sample_builder (closureT sig_one_result) closure1) with_caller
      = Ok e w1 /\
    exists w2,
      request 0 (ReqStub sample_builder (closureT sig_one_result) closure1)
        (run [Orequest 0 (ReqFunc "main.g" sig_two_results InGo); Olower ReqBool] w1)
        = Ok e w2 /\
      pkgs w2 = pkgs (run [Orequest 0 (ReqFunc "main.g" sig_two_results InGo); Olower ReqBool] w1).
Proof.
  eexists _, _. split; [vm_compute; reflexivity|].
  eapply (proj1 (symbol_tables_idempotent 0
                   (ReqStub sample_builder (closureT sig_one_result) closure1) with_caller _)).
  vm_compute. reflexivity.
Defined.
